(** * The Schelling segregation model of [lectures/abm/abm-1.ipynb]

    The notebook defines two classes on top of the [mesa] package:
    [SchellingAgent] (one method, [step]) and [SchellingModel]
    ([__init__] and [step]).  The grid ([mesa.space.SingleGrid]), the
    scheduler ([mesa.time.RandomActivation]) and the random sources are
    imported, not defined, by the notebook; they are modelled below from
    their written contract, each under a comment that says so. *)

From Stdlib Require Import ZArith QArith String List Lia.
From stdpp Require Import base gmap sets list strings pretty.

Local Open Scope Z_scope.

(** ** Data model *)

(** A grid coordinate [(x, y)]. *)
Abbreviation Coordinate := (Z * Z)%type.

(** [SchellingAgent.__init__] passes [pos] as the agent's name to
    [Agent.__init__], so the identity of an agent is the coordinate it was
    created for; [pos] is mutated afterwards, the identity is not. *)
Abbreviation AgentId := (Z * Z)%type.

(** The instance variables of a [SchellingAgent]. *)
Record SchellingAgent := mkAgent {
  unique_id : AgentId;
  pos : Coordinate;
  type : string;
  homophily : Q
}.

Definition set_pos (c : Coordinate) (a : SchellingAgent) : SchellingAgent :=
  mkAgent (unique_id a) c (type a) (homophily a).

(** Modelled from the spec: the spatial grid ([SingleGrid] is imported from
    mesa).  Dimensions, the wraparound flag, the occupancy map from a
    coordinate to at most one agent identity, and the empty-cell index,
    which is kept incrementally. *)
Record SingleGrid := mkGrid {
  width : Z;
  height : Z;
  torus : bool;
  cells : gmap Coordinate AgentId;
  empties : gset Coordinate
}.

(** The program state: the attributes of the [SchellingModel] object
    ([schedule], [grid], [moved]), the agent objects it refers to, and the
    positions reached in the two random sources the notebook draws from
    ([self.random], the model's generator, and numpy's global generator).
    [agents] with [agent_keys] is the scheduler's ordered dictionary from
    identity to agent object; the grid refers to the same objects through
    their identity, so a change of [pos] is seen by both.  [moved] is
    [None] until [SchellingModel.step] creates the attribute. *)
Record State := mkState {
  agent_keys : list AgentId;
  agents : gmap AgentId SchellingAgent;
  grid : SingleGrid;
  moved : option Z;
  random_pos : nat;
  np_random_pos : nat
}.

Definition set_grid (g : SingleGrid) (st : State) : State :=
  mkState (agent_keys st) (agents st) g (moved st) (random_pos st) (np_random_pos st).
Definition set_agents (ks : list AgentId) (m : gmap AgentId SchellingAgent) (st : State) : State :=
  mkState ks m (grid st) (moved st) (random_pos st) (np_random_pos st).
Definition set_moved (m : option Z) (st : State) : State :=
  mkState (agent_keys st) (agents st) (grid st) m (random_pos st) (np_random_pos st).
Definition advance_random (st : State) : State :=
  mkState (agent_keys st) (agents st) (grid st) (moved st) (S (random_pos st)) (np_random_pos st).
Definition advance_np_random (st : State) : State :=
  mkState (agent_keys st) (agents st) (grid st) (moved st) (random_pos st) (S (np_random_pos st)).

(** ** Exceptions and the state-and-exception monad *)

Inductive Exception :=
  | EmptyGridExhausted
  | DuplicateOccupancyViolation
  | OutOfBoundsAccess
  | NotPlaced
  | ValueError
  | AttributeError.

Inductive Outcome (A : Type) :=
  | Return (a : A)
  | Raise (e : Exception).
Arguments Return {A} a.
Arguments Raise {A} e.

(** A Python computation: it runs from a state and either returns or
    raises; the state reached is kept in both cases, as the mutations made
    before an exception are. *)
Definition Py (A : Type) : Type := State → Outcome A * State.

Definition ret {A} (a : A) : Py A := λ st, (Return a, st).
Definition bind {A B} (m : Py A) (k : A → Py B) : Py B := λ st,
  match m st with
  | (Return a, st') => k a st'
  | (Raise e, st') => (Raise e, st')
  end.
Definition get : Py State := λ st, (Return st, st).
Definition modify (f : State → State) : Py unit := λ st, (Return tt, f st).

Notation "x <- m ;; k" := (bind m (λ x, k))
  (at level 100, m at next level, right associativity).
Notation "m ;;; k" := (bind m (λ _, k))
  (at level 100, right associativity).

(** [for x in l: body(x)] *)
Fixpoint for_each {A} (l : list A) (body : A → Py unit) : Py unit :=
  match l with
  | [] => ret tt
  | x :: l' => body x ;;; for_each l' body
  end.

(** ** Floats *)

(** Floats are modelled by the rationals they denote, and NaN by [None]. *)
Definition Qltb (x y : Q) : bool := negb (Qle_bool y x).

(** [x < h] for a possibly-NaN [x]: every comparison with NaN is false. *)
Definition float_lt (x : option Q) (h : Q) : bool :=
  match x with
  | Some q => Qltb q h
  | None => false
  end.

Definition count_true (bs : list bool) : nat := length (filter (λ b, b = true) bs).

(** [np.mean] of a list of booleans: the number of [True] over the length,
    NaN for the empty list. *)
Definition np_mean (bs : list bool) : option Q :=
  match bs with
  | [] => None
  | _ => Some (Z.of_nat (count_true bs) # Pos.of_nat (length bs))
  end.

(** The float in [[0, 1)] made of the low 53 bits of a raw draw. *)
Definition unit_float (raw : N) : Q := Z.of_N (raw `mod` 2 ^ 53)%N # 2 ^ 53.

(** ** The grid *)

Definition out_of_bounds (g : SingleGrid) (c : Coordinate) : bool :=
  negb ((0 <=? c.1) && (c.1 <? width g) && (0 <=? c.2) && (c.2 <? height g)).

(** [coord_iter]: every cell of the grid, column by column. *)
Definition coord_iter (w h : Z) : list Coordinate :=
  x ← seqZ 0 w; y ← seqZ 0 h; [(x, y)].

Definition moore_offsets : list (Z * Z) :=
  [(-1, -1); (0, -1); (1, -1); (-1, 0); (1, 0); (-1, 1); (0, 1); (1, 1)].

(** Modelled from the spec: [neighbors(position)], the up-to-eight
    coordinates of the Moore neighbourhood filtered through the wraparound
    policy: taken modulo the dimensions on a torus, dropped when outside
    the bounds otherwise.  A coordinate is listed once. *)
Definition neighbors (g : SingleGrid) (p : Coordinate) : list Coordinate :=
  remove_dups (omap (λ d : Z * Z,
    let c := (p.1 + d.1, p.2 + d.2) in
    if torus g then Some (c.1 `mod` width g, c.2 `mod` height g)
    else if out_of_bounds g c then None else Some c) moore_offsets).

(** Modelled from the spec: [occupant_at(position)], resolved to the agent
    object. *)
Definition occupant_at (st : State) (c : Coordinate) : option SchellingAgent :=
  id ← cells (grid st) !! c; agents st !! id.

(** Modelled from the spec: [neighbor_iter(pos)] of mesa iterates over the
    agents that occupy the neighbouring cells; the empty ones yield
    nothing. *)
Definition neighbor_iter (st : State) (p : Coordinate) : list SchellingAgent :=
  omap (occupant_at st) (neighbors (grid st) p).

(** Modelled from the spec: [place(identity, position)] fails if the
    position is out of bounds or occupied; otherwise it binds identity and
    position and takes the position out of the empty-cell index. *)
Definition place (id : AgentId) (c : Coordinate) : Py unit := λ st,
  let g := grid st in
  if out_of_bounds g c then (Raise OutOfBoundsAccess, st)
  else match cells g !! c with
       | Some _ => (Raise DuplicateOccupancyViolation, st)
       | None =>
           (Return tt,
            set_agents (agent_keys st) (alter (set_pos c) id (agents st))
              (set_grid (mkGrid (width g) (height g) (torus g)
                                (<[c := id]> (cells g)) (empties g ∖ {[c]})) st))
       end.

(** Modelled from the spec: [remove(identity)] fails if the identity is not
    placed; otherwise it clears the binding and gives the coordinate back
    to the empty-cell index. *)
Definition remove (id : AgentId) : Py unit := λ st,
  let g := grid st in
  match agents st !! id with
  | None => (Raise NotPlaced, st)
  | Some a =>
      if decide (cells g !! pos a = Some id) then
        (Return tt,
         set_grid (mkGrid (width g) (height g) (torus g)
                          (delete (pos a) (cells g)) (empties g ∪ {[pos a]})) st)
      else (Raise NotPlaced, st)
  end.

(** Modelled from the spec: [move] is [remove] followed by [place]. *)
Definition move (id : AgentId) (c : Coordinate) : Py unit :=
  remove id ;;; place id c.

Section Simulation.

(** The two random sources, as the sequences of raw draws they deliver:
    [self.random] (the generator of the model, which the grid and the
    scheduler use too) and numpy's global generator. *)
Variable model_random : nat → N.
Variable np_random : nat → N.

(** [self.random.random()]: a float in [[0, 1)] with 53 random bits. *)
Definition random : Py Q := λ st,
  (Return (unit_float (model_random (random_pos st))), advance_random st).

(** A draw of an index below [n] from the model's generator (as [choice]
    and [shuffle] make), taken as the raw draw modulo [n]. *)
Definition randbelow (n : nat) : Py nat := λ st,
  (Return (N.to_nat (model_random (random_pos st)) `mod` n)%nat, advance_random st).

(** [np.random.choice(xs)] *)
Definition np_random_choice (xs : list string) : Py string := λ st,
  match xs !! (N.to_nat (np_random (np_random_pos st)) `mod` length xs)%nat with
  | Some x => (Return x, advance_np_random st)
  | None => (Raise ValueError, st)
  end.

(** Modelled from the spec: [random_empty_cell()] selects a coordinate of
    the empty-cell index with the random source and fails with
    [EmptyGridExhausted] if there is none. *)
Definition random_empty_cell : Py Coordinate := λ st,
  let es := elements (empties (grid st)) in
  match es with
  | [] => (Raise EmptyGridExhausted, st)
  | c0 :: _ =>
      (j <- randbelow (length es) ;; ret (default c0 (es !! j))) st
  end.

(** Modelled from the spec: [move_to_empty(agent)] relocates the agent to
    [random_empty_cell()]. *)
Definition move_to_empty (self : SchellingAgent) : Py unit :=
  c <- random_empty_cell ;; move (unique_id self) c.

(** ** [SchellingAgent] *)

(** The list comprehension of [SchellingAgent.step] under [np.mean]. *)
Definition pct_similar_neighbors (self : SchellingAgent) (st : State) : option Q :=
  np_mean (map (λ other, String.eqb (type self) (type other))
               (neighbor_iter st (pos self))).

(** [self.model.moved += 1] *)
Definition incr_moved : Py unit := λ st,
  match moved st with
  | Some m => (Return tt, set_moved (Some (m + 1)) st)
  | None => (Raise AttributeError, st)
  end.

(** [SchellingAgent.step] *)
Definition SchellingAgent_step (self : SchellingAgent) : Py unit :=
  st <- get ;;
  if float_lt (pct_similar_neighbors self st) (homophily self) then
    move_to_empty self ;;; incr_moved
  else ret tt.

(** ** The scheduler *)

(** Modelled from the spec: [schedule.add(agent)] registers the agent. *)
Definition schedule_add (a : SchellingAgent) : Py unit := λ st,
  (Return tt,
   set_agents (if decide (is_Some (agents st !! unique_id a)) then agent_keys st
               else agent_keys st ++ [unique_id a])
              (<[unique_id a := a]> (agents st)) st).

(** Modelled from the spec: a permutation of a list drawn from the random
    source, one draw for each position. *)
Fixpoint shuffle (n : nat) (l : list AgentId) : Py (list AgentId) :=
  match n with
  | O => ret []
  | S n' =>
      j <- randbelow (length l) ;;
      match l !! j with
      | Some x => rest <- shuffle n' (delete j l) ;; ret (x :: rest)
      | None => ret []
      end
  end.

(** The activation of one registered identity: the step of the agent
    object registered under it. *)
Definition activate (key : AgentId) : Py unit :=
  st <- get ;;
  match agents st !! key with
  | Some a => SchellingAgent_step a
  | None => ret tt
  end.

(** Modelled from the spec: the scheduler's step ([RandomActivation.step]
    of mesa).  On entry it draws a permutation of the registered
    identities, then it invokes each agent's step in that order.  The
    notebook puts no handler around [agent.step()] or [schedule.step()]
    and its model has no counter other than [moved], so an exception
    raised under an agent's step is modelled as Python propagates an
    unhandled one: it leaves the loop. *)
Definition RandomActivation_step : Py unit :=
  st <- get ;;
  order <- shuffle (length (agent_keys st)) (agent_keys st) ;;
  for_each order activate.

(** ** [SchellingModel] *)

(** The body of the loop of [SchellingModel.__init__] for one cell:
    [schedule.add(agent)], then [grid.position_agent(agent, (x, y))], which
    is the grid's [place] at the cell. *)
Definition init_cell (density h : Q) (cell : Coordinate) : Py unit :=
  r <- random ;;
  if Qltb r density then
    agent_type <- np_random_choice ["triangle"; "square"]%string ;;
    let agent := mkAgent cell cell agent_type h in
    schedule_add agent ;;;
    place (unique_id agent) cell
  else ret tt.

(** [SchellingModel.__init__(width, height, density, homophily)]: a fresh
    scheduler, a fresh grid with [torus=True], and the loop over
    [coord_iter()]. *)
Definition SchellingModel_init (w h : Z) (density hom : Q) : Py unit :=
  modify (set_agents [] ∅) ;;;
  modify (set_grid (mkGrid w h true ∅ (list_to_set (coord_iter w h)))) ;;;
  for_each (coord_iter w h) (init_cell density hom).

(** The model object before [__init__] has run: only the random sources,
    at the positions given. *)
Definition blank (r n : nat) : State :=
  mkState [] ∅ (mkGrid 0 0 false ∅ ∅) None r n.

(** [SchellingModel.step]; the printed line shows [moved]. *)
Definition SchellingModel_step : Py unit :=
  modify (set_moved (Some 0)) ;;;
  RandomActivation_step.

End Simulation.

(** ** The invariant of the state *)

(** The empty-cell index is the complement of the occupied cells within
    the bounds; a cell refers to an agent that records this cell as its
    position; an agent is registered under its identity and stands on the
    cell it records; the registered identities are the keys, once each. *)
Record state_inv (st : State) : Prop := {
  inv_empties : ∀ c, c ∈ empties (grid st) ↔
      out_of_bounds (grid st) c = false ∧ cells (grid st) !! c = None;
  inv_cells : ∀ c id, cells (grid st) !! c = Some id →
      out_of_bounds (grid st) c = false ∧ ∃ a, agents st !! id = Some a ∧ pos a = c;
  inv_agents : ∀ id a, agents st !! id = Some a →
      unique_id a = id ∧ cells (grid st) !! pos a = Some id;
  inv_keys_nodup : NoDup (agent_keys st);
  inv_keys : ∀ id, id ∈ agent_keys st ↔ is_Some (agents st !! id)
}.

(** The state after the grid has moved [self] to the cell [c] with one draw
    of the model's generator: the old cell is free, [c] holds the agent,
    and the agent records [c]. *)
Definition relocated (self : SchellingAgent) (c : Coordinate) (st : State) : State :=
  let g := grid st in
  set_agents (agent_keys st) (alter (set_pos c) (unique_id self) (agents st))
    (set_grid (mkGrid (width g) (height g) (torus g)
                      (<[c := unique_id self]> (delete (pos self) (cells g)))
                      ((empties g ∪ {[pos self]}) ∖ {[c]}))
              (advance_random st)).

(** What no operation after the construction changes: the shape of the
    grid and the set of registered agents. *)
Definition same_frame (st st' : State) : Prop :=
  width (grid st') = width (grid st) ∧
  height (grid st') = height (grid st) ∧
  torus (grid st') = torus (grid st) ∧
  agent_keys st' = agent_keys st ∧
  dom (agents st') = dom (agents st).

(** ** What the claims speak of *)

(** The per-tick snapshot: for every coordinate, the type tag of its
    occupant or nothing. *)
Definition snapshot (st : State) : list (Coordinate * option string) :=
  map (λ c, (c, type <$> occupant_at st c))
      (coord_iter (width (grid st)) (height (grid st))).




(** The agent registered under [key] is unhappy in a state: the test of
    [SchellingAgent.step] succeeds for it. *)
Definition unhappy (st : State) (key : AgentId) : bool :=
  match agents st !! key with
  | Some a => float_lt (pct_similar_neighbors a st) (homophily a)
  | None => false
  end.

Section Runs.

Variable model_random : nat → N.
Variable np_random : nat → N.

(** The loop of [__init__] stopped after its first [k] cells. *)
Definition init_upto (k : nat) (w h : Z) (density hom : Q) : Py unit :=
  modify (set_agents [] ∅) ;;;
  modify (set_grid (mkGrid w h true ∅ (list_to_set (coord_iter w h)))) ;;;
  for_each (take k (coord_iter w h)) (init_cell model_random np_random density hom).

(** The driver of the notebook: [n] calls of [SM.step()], with the
    snapshot and the relocation count seen after each. *)
Fixpoint run (n : nat) : Py (list (list (Coordinate * option string) * option Z)) :=
  match n with
  | O => ret []
  | S n' =>
      SchellingModel_step model_random ;;;
      st <- get ;;
      rest <- run n' ;;
      ret ((snapshot st, moved st) :: rest)
  end.


(** The states at the observable boundaries of a run: during and after the
    construction, after a move by the grid, after the step of a registered
    agent, after a tick. *)
Inductive reachable (w h : Z) (density hom : Q) (r0 n0 : nat) : State → Prop :=
  | reach_init k :
      reachable w h density hom r0 n0 (snd (init_upto k w h density hom (blank r0 n0)))
  | reach_move st self :
      reachable w h density hom r0 n0 st →
      agents st !! unique_id self = Some self →
      reachable w h density hom r0 n0 (snd (move_to_empty model_random self st))
  | reach_step st self :
      reachable w h density hom r0 n0 st →
      agents st !! unique_id self = Some self →
      reachable w h density hom r0 n0 (snd (SchellingAgent_step model_random self st))
  | reach_tick st :
      reachable w h density hom r0 n0 st →
      reachable w h density hom r0 n0 (snd (SchellingModel_step model_random st)).



End Runs.

(** ** Concrete random sources and towns *)

(** A source whose every draw is 0: [random()] is 0.0, every index drawn
    is the first, every type drawn is "triangle". *)
Definition always_zero : nat → N := λ _, 0%N.



(** Draws of the model's generator under which [random()] is 0.0 except at
    one position, where it is the largest float below 1. *)
Definition high_at (i : nat) : nat → N :=
  λ k, if (k =? i)%nat then (2 ^ 53 - 1)%N else 0%N.

(** Draws under which [random()] is 0.0 at the first position only. *)
Definition low_first : nat → N :=
  λ k, if (k =? 0)%nat then 0%N else (2 ^ 53 - 1)%N.

(** Draws of numpy's generator that make the first, second and sixth
    agents triangles and all others squares. *)
Definition three_triangles : nat → N :=
  λ k, if ((k =? 0) || (k =? 1) || (k =? 5))%nat then 0%N else 1%N.

(** A 3 by 3 town with every cell occupied. *)
Definition crowded : State :=
  snd (SchellingModel_init always_zero three_triangles 3 3 1 (1 # 2) (blank 0 0)).

(** A 4 by 4 town whose cell (3, 3) alone is empty. *)
Definition roomy : State :=
  snd (SchellingModel_init (high_at 15) three_triangles 4 4 (1 # 2) (1 # 2) (blank 0 0)).

(** A 3 by 3 town with a single agent, at (0, 0). *)
Definition lonely : State :=
  snd (SchellingModel_init low_first three_triangles 3 3 (1 # 2) (1 # 2) (blank 0 0)).

(** The town of [roomy] with threshold 0: nobody has a reason to move. *)
Definition calm : State :=
  snd (SchellingModel_init (high_at 15) three_triangles 4 4 (1 # 2) 0 (blank 0 0)).

(** The triangle created for the cell (0, 0) and the one for (1, 1). *)
Definition corner_triangle : SchellingAgent := mkAgent (0, 0) (0, 0) "triangle" (1 # 2).
Definition inner_triangle : SchellingAgent := mkAgent (1, 1) (1, 1) "triangle" (1 # 2).

(** What [__init__] gives an agent for good: one of the two types and the
    threshold of the model. *)
Definition well_typed (hom : Q) (a : SchellingAgent) : Prop :=
  (type a = "triangle" ∨ type a = "square") ∧ homophily a = hom.

(** Between two states no agent appears and none changes its identity,
    its type or its threshold. *)
Definition static_fields_kept (st st' : State) : Prop :=
  ∀ id a', agents st' !! id = Some a' →
    ∃ a, agents st !! id = Some a ∧
         unique_id a' = unique_id a ∧ type a' = type a ∧ homophily a' = homophily a.

(** ** [viz_state] *)




(** The cells that the loop of [__init__] populates, in the words of its
    test: the cell visited at position [p] of the model's generator gets an
    agent when the draw made there is below the density. *)
Fixpoint populated (model_random : nat → N) (density : Q) (p : nat)
    (cs : list Coordinate) : list Coordinate :=
  match cs with
  | [] => []
  | c :: cs' =>
      if Qltb (unit_float (model_random p)) density
      then c :: populated model_random density (S p) cs'
      else populated model_random density (S p) cs'
  end.

(** The permutation that [shuffle] returns, as a function of the draws and
    of the position reached in them. *)
Fixpoint shuffle_from {A} (draws : nat → N) (p : nat) (n : nat) (l : list A) : list A :=
  match n with
  | O => []
  | S n' =>
      match l !! (N.to_nat (draws p) `mod` length l)%nat with
      | Some x =>
          x :: shuffle_from draws (S p) n'
                 (delete (N.to_nat (draws p) `mod` length l)%nat l)
      | None => []
      end
  end.

(** ** The toy model of the first cells *)

(** The first [ToyAgent]: a name, which is also its identity. *)
Record ToyAgent := mkToyAgent {
  toy_unique_id : Z;
  name : Z
}.

(** The state of the first [ToyModel]: the scheduler's ordered dictionary,
    the position reached in the model's generator, and the lines printed
    so far. *)
Record ToyState := mkToyState {
  toy_keys : list Z;
  toy_agents : gmap Z ToyAgent;
  toy_random_pos : nat;
  stdout : list string
}.

(** The line of [ToyAgent.step]. *)
Definition greeting (self : ToyAgent) : string :=
  "Hi, I'm Agent 00" +:+ pretty (name self) +:+ "!".

(** [ToyAgent.step]: [print(f"Hi, I'm Agent 00{self.name}!")] *)
Definition ToyAgent_step (self : ToyAgent) (st : ToyState) : ToyState :=
  mkToyState (toy_keys st) (toy_agents st) (toy_random_pos st)
             (stdout st ++ [greeting self]).

(** Modelled from the spec: [schedule.add(agent)], as for the Schelling
    model. *)
Definition toy_schedule_add (a : ToyAgent) (st : ToyState) : ToyState :=
  mkToyState (if decide (is_Some (toy_agents st !! toy_unique_id a)) then toy_keys st
              else toy_keys st ++ [toy_unique_id a])
             (<[toy_unique_id a := a]> (toy_agents st))
             (toy_random_pos st) (stdout st).

(** [ToyModel.__init__(n_agents)]: a fresh scheduler and one agent for each
    [i] in [range(n_agents)]; [r] is the position of the model's generator
    and [out] what has been printed before. *)
Definition ToyModel_init (n_agents : Z) (r : nat) (out : list string) : ToyState :=
  foldl (λ st i, toy_schedule_add (mkToyAgent i i) st)
        (mkToyState [] ∅ r out) (seqZ 0 n_agents).

(** [ToyModel.step]: [self.schedule.step()], the scheduler's step of the
    Schelling model with [ToyAgent.step] for the agents. *)
Definition ToyModel_step (model_random : nat → N) (st : ToyState) : ToyState :=
  foldl (λ st key,
           match toy_agents st !! key with
           | Some a => ToyAgent_step a st
           | None => st
           end)
        (mkToyState (toy_keys st) (toy_agents st)
                    (length (toy_keys st) + toy_random_pos st) (stdout st))
        (shuffle_from model_random (toy_random_pos st) (length (toy_keys st)) (toy_keys st)).

(** The invariant reads the scheduler's dictionary and the grid only. *)
Lemma state_inv_ext (st st' : State) :
  agent_keys st' = agent_keys st → agents st' = agents st → grid st' = grid st →
  state_inv st → state_inv st'.
Proof.
  intros Hk Ha Hg [He Hc Hag Hnd Hks].
  constructor; rewrite ?Hk, ?Ha, ?Hg; assumption.
Qed.

Ltac py_unfold :=
  unfold bind, ret, get, modify in *; simpl in *.

Lemma two_choices (k : nat) :
  ∃ x, (["triangle"; "square"]%string : list string) !! (k `mod` 2)%nat = Some x.
Proof.
  assert (H : (k `mod` 2 < 2)%nat) by (apply Nat.mod_upper_bound; lia).
  destruct (k `mod` 2)%nat as [|[|?]]; simpl; eauto; lia.
Qed.

(** ** Comparison and mean *)

Lemma Qltb_lt (x y : Q) : Qltb x y = true ↔ (x < y)%Q.
Proof.
  unfold Qltb. rewrite negb_true_iff, <- not_true_iff_false, Qle_bool_iff.
  split; [apply Qnot_le_lt|apply Qlt_not_le].
Qed.

Lemma Qltb_ge (x y : Q) : Qltb x y = false ↔ (y <= x)%Q.
Proof. unfold Qltb. by rewrite negb_false_iff, Qle_bool_iff. Qed.


Lemma count_true_le (bs : list bool) : (count_true bs ≤ length bs)%nat.
Proof. unfold count_true. apply length_filter. Qed.

(** The mean of booleans is never below 0. *)
Lemma np_mean_nonneg (bs : list bool) (h : Q) :
  (h <= 0)%Q → float_lt (np_mean bs) h = false.
Proof.
  intros Hh. destruct bs as [|b bs]; [done|]. unfold np_mean, float_lt.
  apply Qltb_ge. eapply Qle_trans; [exact Hh|].
  unfold Qle. simpl. lia.
Qed.

Section Counting.

Variable f : Coordinate → option SchellingAgent.
Variable t : string.



End Counting.

(** ** The grid and the loops *)

Lemma elem_of_coord_iter (w h : Z) (c : Coordinate) :
  c ∈ coord_iter w h ↔ (0 ≤ c.1 < w ∧ 0 ≤ c.2 < h).
Proof.
  unfold coord_iter. rewrite list_elem_of_bind. split.
  - intros (x & Hc & Hx). apply list_elem_of_bind in Hc as (y & Hc & Hy).
    apply list_elem_of_singleton in Hc as ->. simpl.
    apply elem_of_seqZ in Hx, Hy. lia.
  - intros [Hx Hy]. exists c.1. split; [|apply elem_of_seqZ; lia].
    apply list_elem_of_bind. exists c.2. split; [|apply elem_of_seqZ; lia].
    destruct c. simpl. apply list_elem_of_singleton. done.
Qed.

Lemma NoDup_coord_iter (w h : Z) : NoDup (coord_iter w h).
Proof.
  unfold coord_iter. apply NoDup_bind; [| |apply NoDup_seqZ].
  - intros x1 x2 c _ _ H1 H2.
    apply list_elem_of_bind in H1 as (y1 & H1 & _), H2 as (y2 & H2 & _).
    apply list_elem_of_singleton in H1, H2. congruence.
  - intros x _. apply NoDup_bind; [| |apply NoDup_seqZ].
    + intros y1 y2 c _ _ H1 H2. apply list_elem_of_singleton in H1, H2. congruence.
    + intros y _. apply NoDup_singleton.
Qed.

Lemma out_of_bounds_false (g : SingleGrid) (c : Coordinate) :
  out_of_bounds g c = false ↔ c ∈ coord_iter (width g) (height g).
Proof.
  rewrite elem_of_coord_iter. unfold out_of_bounds.
  rewrite negb_false_iff, !andb_true_iff, !Z.leb_le, !Z.ltb_lt. lia.
Qed.

Lemma out_of_bounds_shape (g g' : SingleGrid) (c : Coordinate) :
  width g' = width g → height g' = height g →
  out_of_bounds g' c = out_of_bounds g c.
Proof. unfold out_of_bounds. by intros -> ->. Qed.

Lemma for_each_preserves {A} (P : State → Prop) (body : A → Py unit) (l : list A) :
  (∀ x st, P st → P (snd (body x st))) →
  ∀ st, P st → P (snd (for_each l body st)).
Proof.
  intros Hbody. induction l as [|x l IH]; intros st HP; simpl; [done|].
  unfold bind. specialize (Hbody x st HP).
  destruct (body x st) as [[[]|e] st1]; simpl in *; auto.
Qed.

Section Invariant.

Variable model_random : nat → N.
Variable np_random : nat → N.

(** One iteration of the loop of [__init__] on a cell that is within the
    bounds and has neither an occupant nor an agent created for it. *)
Lemma init_cell_spec (density h : Q) (c : Coordinate) (st : State) :
  state_inv st →
  out_of_bounds (grid st) c = false →
  cells (grid st) !! c = None →
  agents st !! c = None →
  let r := init_cell model_random np_random density h c st in
  fst r = Return tt ∧ state_inv (snd r) ∧
  width (grid (snd r)) = width (grid st) ∧
  height (grid (snd r)) = height (grid st) ∧
  torus (grid (snd r)) = torus (grid st) ∧
  moved (snd r) = moved st ∧
  (∀ c', c' ≠ c → cells (grid (snd r)) !! c' = cells (grid st) !! c' ∧
                  agents (snd r) !! c' = agents st !! c').
Proof.
  intros Hinv Hb Hc Ha. unfold init_cell, random. py_unfold.
  destruct (Qltb _ density); simpl.
  2: { split; [done|]. split; [by apply (state_inv_ext st)|]. repeat split; done. }
  unfold np_random_choice; simpl.
  destruct (two_choices (N.to_nat (np_random (np_random_pos st)))) as [ty Hty].
  simpl in Hty. rewrite Hty. simpl.
  unfold schedule_add, place; simpl.
  rewrite Ha. rewrite decide_False by (intros [? ?]; done).
  unfold out_of_bounds in *; simpl in *. rewrite Hb, Hc. simpl.
  destruct Hinv as [He Hce Hag Hnd Hk].
  set (ag := mkAgent c c ty h).
  assert (Halt : alter (set_pos c) c (<[c:=ag]> (agents st)) = <[c:=ag]> (agents st)).
  { apply map_eq; intros i. destruct (decide (c = i)) as [->|].
    - by rewrite lookup_alter_eq, !lookup_insert_eq.
    - by rewrite lookup_alter_ne, !lookup_insert_ne. }
  rewrite Halt. clear Halt.
  split; [done|]. split.
  { constructor; simpl.
    - intros c0. rewrite elem_of_difference, He, elem_of_singleton.
      destruct (decide (c = c0)) as [->|Hne].
      + rewrite lookup_insert_eq. clear He Hce Hag Hk; intuition congruence.
      + rewrite lookup_insert_ne by done. clear He Hce Hag Hk; intuition congruence.
    - intros c0 id Hl. destruct (decide (c = c0)) as [->|Hne].
      + rewrite lookup_insert_eq in Hl. injection Hl as <-.
        split; [done|]. exists ag. by rewrite lookup_insert_eq.
      + rewrite lookup_insert_ne in Hl by done.
        apply Hce in Hl as [? (a & Hl & Hp)]. split; [done|].
        exists a. split; [|done].
        rewrite lookup_insert_ne; [done|]. intros ->. congruence.
    - intros id a Hl. destruct (decide (c = id)) as [->|Hne].
      + rewrite lookup_insert_eq in Hl. injection Hl as <-.
        simpl. by rewrite lookup_insert_eq.
      + rewrite lookup_insert_ne in Hl by done.
        apply Hag in Hl as [? Hl]. split; [done|].
        rewrite lookup_insert_ne; [done|]. intros ->. congruence.
    - apply NoDup_app. split; [done|]. split; [|apply NoDup_singleton].
      intros x Hx Hx'. apply list_elem_of_singleton in Hx' as ->.
      apply Hk in Hx as [? ?]. congruence.
    - intros id. rewrite elem_of_app, list_elem_of_singleton, Hk.
      destruct (decide (c = id)) as [->|Hne].
      + rewrite lookup_insert_eq. split; [by eexists|by right].
      + rewrite lookup_insert_ne by done. clear He Hce Hag Hk; intuition congruence. }
  repeat split; try done.
  - by rewrite lookup_insert_ne.
  - by rewrite lookup_insert_ne.
Qed.

(** The loop of [__init__] over cells that are distinct, within the
    bounds and untouched so far. *)
Lemma init_loop_spec (density h : Q) (cs : list Coordinate) :
  NoDup cs →
  ∀ st, state_inv st →
  (∀ c, c ∈ cs → out_of_bounds (grid st) c = false ∧
                 cells (grid st) !! c = None ∧ agents st !! c = None) →
  let r := for_each cs (init_cell model_random np_random density h) st in
  fst r = Return tt ∧ state_inv (snd r) ∧
  width (grid (snd r)) = width (grid st) ∧
  height (grid (snd r)) = height (grid st) ∧
  torus (grid (snd r)) = torus (grid st) ∧
  moved (snd r) = moved st.
Proof.
  induction 1 as [|c cs Hnin Hnd IH]; intros st Hinv Hfresh; simpl.
  { repeat (split; [done|]). done. }
  destruct (Hfresh c) as (Hb & Hc & Ha); [by left|].
  destruct (init_cell_spec density h c st Hinv Hb Hc Ha)
    as (Hr & Hinv1 & Hw & Hh & Ht & Hm & Hother).
  unfold bind.
  destruct (init_cell model_random np_random density h c st) as [o st1].
  simpl in *. subst o.
  destruct (IH st1 Hinv1) as (Hr2 & Hinv2 & Hw2 & Hh2 & Ht2 & Hm2).
  { intros c' Hc'. assert (c' ≠ c) by (intros ->; done).
    destruct (Hfresh c') as (Hb' & Hc'' & Ha'); [by right|].
    destruct (Hother c') as [-> ->]; [done|].
    rewrite (out_of_bounds_shape (grid st)) by done. done. }
  repeat (split; [done|]). repeat split; congruence.
Qed.

Lemma unit_float_range (raw : N) :
  (0 <= unit_float raw)%Q ∧ (unit_float raw < 1)%Q.
Proof.
  unfold unit_float, Qle, Qlt. simpl.
  assert (Hlt : (raw `mod` 2 ^ 53 < 2 ^ 53)%N) by (by apply N.mod_lt).
  remember (raw `mod` 2 ^ 53)%N as r eqn:Hr. clear Hr.
  change (Z.pos (2 ^ 53)) with 9007199254740992.
  change (2 ^ 53)%N with 9007199254740992%N in Hlt. lia.
Qed.

(** The identities registered by one iteration of the loop. *)
Lemma init_cell_keys (density h : Q) (c : Coordinate) (st : State) :
  agents st !! c = None →
  agent_keys (snd (init_cell model_random np_random density h c st)) =
  if Qltb (unit_float (model_random (random_pos st))) density
  then agent_keys st ++ [c] else agent_keys st.
Proof.
  intros Ha. unfold init_cell, random. py_unfold.
  destruct (Qltb _ density); simpl; [|done].
  unfold np_random_choice; simpl.
  destruct (two_choices (N.to_nat (np_random (np_random_pos st)))) as [ty Hty].
  simpl in Hty. rewrite Hty. simpl.
  unfold schedule_add, place; simpl.
  rewrite Ha. rewrite decide_False by (intros [? ?]; done).
  destruct (out_of_bounds _ _); simpl; [done|].
  by destruct (cells (grid st) !! c).
Qed.

(** With a density of 1 or more every cell of the loop gets an agent. *)
Lemma init_loop_keys_full (density h : Q) (cs : list Coordinate) :
  (1 <= density)%Q →
  NoDup cs →
  ∀ st, state_inv st →
  (∀ c, c ∈ cs → out_of_bounds (grid st) c = false ∧
                 cells (grid st) !! c = None ∧ agents st !! c = None) →
  agent_keys (snd (for_each cs (init_cell model_random np_random density h) st)) =
  agent_keys st ++ cs.
Proof.
  intros Hd. induction 1 as [|c cs Hnin Hnd IH]; intros st Hinv Hfresh; simpl.
  { by rewrite app_nil_r. }
  destruct (Hfresh c) as (Hb & Hc & Ha); [by left|].
  destruct (init_cell_spec density h c st Hinv Hb Hc Ha)
    as (Hr & Hinv1 & Hw & Hh & Ht & Hm & Hother).
  pose proof (init_cell_keys density h c st Ha) as Hkeys.
  assert (Hq : Qltb (unit_float (model_random (random_pos st))) density = true).
  { apply Qltb_lt. eapply Qlt_le_trans; [apply unit_float_range|exact Hd]. }
  rewrite Hq in Hkeys.
  unfold bind.
  destruct (init_cell model_random np_random density h c st) as [o st1].
  simpl in *. subst o.
  rewrite IH; [by rewrite Hkeys, <- app_assoc|done|].
  intros c' Hc'. assert (c' ≠ c) by (intros ->; done).
  destruct (Hfresh c') as (Hb' & Hc'' & Ha'); [by right|].
  destruct (Hother c') as [-> ->]; [done|].
  rewrite (out_of_bounds_shape (grid st)) by done. done.
Qed.

(** With a density of 0 or less no cell of the loop gets an agent. *)
Lemma init_loop_keys_none (density h : Q) (cs : list Coordinate) (st : State) :
  (density <= 0)%Q →
  agent_keys (snd (for_each cs (init_cell model_random np_random density h) st)) =
  agent_keys st.
Proof.
  intros Hd.
  apply (for_each_preserves (λ st', agent_keys st' = agent_keys st)); [|done].
  intros c st1 Hk. unfold init_cell, random. py_unfold.
  assert (Hq : Qltb (unit_float (model_random (random_pos st1))) density = false).
  { apply Qltb_ge. eapply Qle_trans; [exact Hd|apply unit_float_range]. }
  by rewrite Hq.
Qed.

Lemma init_upto_spec (k : nat) (w h : Z) (density hom : Q) (r0 n0 : nat) :
  let r := init_upto model_random np_random k w h density hom (blank r0 n0) in
  fst r = Return tt ∧ state_inv (snd r) ∧
  width (grid (snd r)) = w ∧ height (grid (snd r)) = h ∧
  torus (grid (snd r)) = true ∧ moved (snd r) = None.
Proof.
  unfold init_upto. py_unfold.
  set (st1 := set_grid _ _).
  destruct (init_loop_spec density hom (take k (coord_iter w h))) with (st := st1)
    as (Hr & Hinv & Hw & Hh & Ht & Hm).
  - eapply sublist_NoDup; [|apply sublist_take]. apply NoDup_coord_iter.
  - constructor; simpl.
    + intros c. rewrite elem_of_list_to_set, lookup_empty.
      rewrite (out_of_bounds_false (mkGrid w h true ∅ _)). simpl. tauto.
    + intros c id Hl. by rewrite lookup_empty in Hl.
    + intros id a Hl. by rewrite lookup_empty in Hl.
    + apply NoDup_nil_2.
    + intros id. rewrite lookup_empty, elem_of_nil. split; [done|]. by intros [? ?].
  - intros c Hc. simpl. rewrite !lookup_empty. split; [|done].
    apply (out_of_bounds_false (mkGrid w h true ∅ _)). simpl.
    eapply elem_of_submseteq; [exact Hc|].
    apply sublist_submseteq, sublist_take.
  - subst st1. simpl in *. repeat (split; [done|]). done.
Qed.

Lemma init_upto_all (w h : Z) (density hom : Q) (st : State) :
  init_upto model_random np_random (length (coord_iter w h)) w h density hom st =
  SchellingModel_init model_random np_random w h density hom st.
Proof. unfold init_upto, SchellingModel_init. by rewrite firstn_all. Qed.

Lemma move_to_empty_full (self : SchellingAgent) (st : State) :
  empties (grid st) = ∅ →
  move_to_empty model_random self st = (Raise EmptyGridExhausted, st).
Proof.
  intros He. unfold move_to_empty, random_empty_cell. py_unfold.
  rewrite He, elements_empty. reflexivity.
Qed.

Lemma random_empty_cell_some (st : State) :
  empties (grid st) ≠ ∅ →
  ∃ c, c ∈ empties (grid st) ∧
       random_empty_cell model_random st = (Return c, advance_random st).
Proof.
  intros Hne. unfold random_empty_cell, randbelow. py_unfold.
  destruct (elements (empties (grid st))) as [|c0 es] eqn:Hes.
  { apply elements_empty_inv in Hes. apply leibniz_equiv in Hes. done. }
  set (j := (N.to_nat (model_random (random_pos st)) `mod` length (c0 :: es))%nat).
  assert (Hj : (j < length (c0 :: es))%nat) by (apply Nat.mod_upper_bound; simpl; lia).
  destruct (lookup_lt_is_Some_2 _ _ Hj) as [c Hc].
  exists c. split.
  - apply elem_of_elements. rewrite Hes. by eapply list_elem_of_lookup_2.
  - fold j. rewrite Hc. reflexivity.
Qed.

Lemma move_to_empty_some (self : SchellingAgent) (st : State) :
  state_inv st →
  agents st !! unique_id self = Some self →
  empties (grid st) ≠ ∅ →
  ∃ c, c ∈ empties (grid st) ∧
       move_to_empty model_random self st = (Return tt, relocated self c st).
Proof.
  intros Hinv Hself Hne.
  destruct (random_empty_cell_some st Hne) as (c & Hc & Hr).
  exists c. split; [done|].
  unfold move_to_empty, move. py_unfold. rewrite Hr.
  unfold remove, place; simpl. rewrite Hself.
  destruct (inv_agents st Hinv _ _ Hself) as [_ Hcell].
  rewrite decide_True by done. simpl.
  apply (inv_empties st Hinv) in Hc as [Hb Hnone].
  unfold out_of_bounds in *; simpl. rewrite Hb.
  rewrite lookup_delete_ne by (intros Heq; rewrite Heq in Hcell; congruence).
  rewrite Hnone. reflexivity.
Qed.

Lemma relocated_inv (self : SchellingAgent) (c : Coordinate) (st : State) :
  state_inv st →
  agents st !! unique_id self = Some self →
  c ∈ empties (grid st) →
  state_inv (relocated self c st).
Proof.
  intros [He Hce Hag Hnd Hk] Hself Hc.
  destruct (Hag _ _ Hself) as [_ Hcell].
  destruct (proj1 (He c) Hc) as [Hb Hnone].
  assert (Hpc : pos self ≠ c) by (intros Heq; rewrite Heq in Hcell; congruence).
  destruct (Hce _ _ Hcell) as [Hbp _].
  constructor; simpl.
  - intros c0. rewrite elem_of_difference, elem_of_union, He, !elem_of_singleton.
    destruct (decide (c = c0)) as [->|Hne].
    + rewrite lookup_insert_eq. clear He Hce Hag Hk; intuition congruence.
    + rewrite lookup_insert_ne by done.
      destruct (decide (pos self = c0)) as [<-|Hne'].
      * rewrite lookup_delete_eq. clear He Hce Hag Hk; intuition congruence.
      * rewrite lookup_delete_ne by done. clear He Hce Hag Hk; intuition congruence.
  - intros c0 id Hl. destruct (decide (c = c0)) as [->|Hne].
    + rewrite lookup_insert_eq in Hl. injection Hl as <-.
      split; [done|]. exists (set_pos c0 self).
      by rewrite lookup_alter_eq, Hself.
    + rewrite lookup_insert_ne in Hl by done.
      destruct (decide (pos self = c0)) as [<-|Hne'].
      { by rewrite lookup_delete_eq in Hl. }
      rewrite lookup_delete_ne in Hl by done.
      destruct (Hce _ _ Hl) as [? (a & Ha & Hp)]. split; [done|].
      exists a. split; [|done].
      rewrite lookup_alter_ne; [done|]. intros <-. congruence.
  - intros id a Hl. destruct (decide (unique_id self = id)) as [<-|Hne].
    + rewrite lookup_alter_eq, Hself in Hl. simpl in Hl. injection Hl as <-.
      simpl. by rewrite lookup_insert_eq.
    + rewrite lookup_alter_ne in Hl by done.
      destruct (Hag _ _ Hl) as [? Hl']. split; [done|].
      rewrite lookup_insert_ne by (intros ->; congruence).
      rewrite lookup_delete_ne; [done|]. intros Heq. rewrite <- Heq in Hl'. congruence.
  - done.
  - intros id. rewrite Hk. destruct (decide (unique_id self = id)) as [<-|Hne].
    + rewrite lookup_alter_eq, Hself. simpl. split; intros; by eexists.
    + by rewrite lookup_alter_ne.
Qed.

Lemma relocated_frame (self : SchellingAgent) (c : Coordinate) (st : State) :
  same_frame st (relocated self c st).
Proof.
  repeat split; simpl. apply set_eq. intros id.
  rewrite !elem_of_dom. destruct (decide (unique_id self = id)) as [<-|Hne].
  - rewrite lookup_alter_eq. by rewrite fmap_is_Some.
  - by rewrite lookup_alter_ne.
Qed.

Lemma same_frame_refl (st : State) : same_frame st st.
Proof. by repeat split. Qed.

Lemma same_frame_trans (st1 st2 st3 : State) :
  same_frame st1 st2 → same_frame st2 st3 → same_frame st1 st3.
Proof. unfold same_frame. intros (?&?&?&?&?) (?&?&?&?&?). repeat split; congruence. Qed.

Lemma step_happy (self : SchellingAgent) (st : State) :
  float_lt (pct_similar_neighbors self st) (homophily self) = false →
  SchellingAgent_step model_random self st = (Return tt, st).
Proof. intros H. unfold SchellingAgent_step. py_unfold. by rewrite H. Qed.

Lemma step_unhappy_full (self : SchellingAgent) (st : State) :
  float_lt (pct_similar_neighbors self st) (homophily self) = true →
  empties (grid st) = ∅ →
  SchellingAgent_step model_random self st = (Raise EmptyGridExhausted, st).
Proof.
  intros H He. unfold SchellingAgent_step. py_unfold.
  by rewrite H, move_to_empty_full.
Qed.

Lemma step_unhappy_some (self : SchellingAgent) (st : State) :
  state_inv st →
  agents st !! unique_id self = Some self →
  float_lt (pct_similar_neighbors self st) (homophily self) = true →
  empties (grid st) ≠ ∅ →
  ∃ c, c ∈ empties (grid st) ∧
       SchellingAgent_step model_random self st =
       match moved st with
       | Some m => (Return tt, set_moved (Some (m + 1)) (relocated self c st))
       | None => (Raise AttributeError, relocated self c st)
       end.
Proof.
  intros Hinv Hself H Hne.
  destruct (move_to_empty_some self st Hinv Hself Hne) as (c & Hc & Hm).
  exists c. split; [done|].
  unfold SchellingAgent_step. py_unfold. rewrite H, Hm.
  unfold incr_moved. simpl. by destruct (moved st).
Qed.

(** What the step of a registered agent can leave behind. *)
Lemma step_cases (self : SchellingAgent) (st : State) :
  state_inv st →
  agents st !! unique_id self = Some self →
  let st' := snd (SchellingAgent_step model_random self st) in
  st' = st ∨
  ∃ c, c ∈ empties (grid st) ∧
       (st' = relocated self c st ∨
        ∃ m, st' = set_moved m (relocated self c st)).
Proof.
  intros Hinv Hself.
  destruct (float_lt (pct_similar_neighbors self st) (homophily self)) eqn:H.
  - destruct (decide (empties (grid st) = ∅)) as [He|Hne].
    + left. by rewrite step_unhappy_full.
    + right. destruct (step_unhappy_some self st Hinv Hself H Hne) as (c & Hc & ->).
      exists c. split; [done|]. destruct (moved st); simpl; eauto.
  - left. by rewrite step_happy.
Qed.

Lemma step_inv (self : SchellingAgent) (st : State) :
  state_inv st →
  agents st !! unique_id self = Some self →
  let st' := snd (SchellingAgent_step model_random self st) in
  state_inv st' ∧ same_frame st st'.
Proof.
  intros Hinv Hself.
  destruct (step_cases self st Hinv Hself) as [->|(c & Hc & [->|[m ->]])].
  - split; [done|apply same_frame_refl].
  - split; [by apply relocated_inv|apply relocated_frame].
  - split; [|apply relocated_frame].
    apply (state_inv_ext (relocated self c st)); try done. by apply relocated_inv.
Qed.

Lemma move_to_empty_inv (self : SchellingAgent) (st : State) :
  state_inv st →
  agents st !! unique_id self = Some self →
  let st' := snd (move_to_empty model_random self st) in
  state_inv st' ∧ same_frame st st'.
Proof.
  intros Hinv Hself.
  destruct (decide (empties (grid st) = ∅)) as [He|Hne].
  - rewrite move_to_empty_full by done. split; [done|apply same_frame_refl].
  - destruct (move_to_empty_some self st Hinv Hself Hne) as (c & Hc & ->).
    split; [by apply relocated_inv|apply relocated_frame].
Qed.

Lemma activate_inv (key : AgentId) (st : State) :
  state_inv st →
  let st' := snd (activate model_random key st) in
  state_inv st' ∧ same_frame st st'.
Proof.
  intros Hinv. unfold activate. py_unfold.
  destruct (agents st !! key) as [a|] eqn:Ha.
  - destruct (inv_agents st Hinv _ _ Ha) as [<- _]. by apply step_inv.
  - split; [done|apply same_frame_refl].
Qed.

Lemma for_each_activate_inv (order : list AgentId) (st : State) :
  state_inv st →
  let st' := snd (for_each order (activate model_random) st) in
  state_inv st' ∧ same_frame st st'.
Proof.
  intros Hinv.
  apply (for_each_preserves (λ st', state_inv st' ∧ same_frame st st')).
  - intros key st1 [Hinv1 Hf1].
    destruct (activate_inv key st1 Hinv1) as [Hinv2 Hf2].
    split; [done|]. by eapply same_frame_trans.
  - split; [done|apply same_frame_refl].
Qed.

Lemma iter_advance_fields (n : nat) (st : State) :
  let st' := Nat.iter n advance_random st in
  agent_keys st' = agent_keys st ∧ agents st' = agents st ∧
  grid st' = grid st ∧ moved st' = moved st ∧
  np_random_pos st' = np_random_pos st.
Proof.
  induction n as [|n IH]; simpl; [done|].
  destruct IH as (?&?&?&?&?). done.
Qed.

(** The shuffle returns a permutation of its argument and draws once for
    each element. *)
Lemma shuffle_spec (n : nat) :
  ∀ (l : list AgentId) (st : State), length l = n →
  ∃ order, order ≡ₚ l ∧
    shuffle model_random n l st = (Return order, Nat.iter n advance_random st).
Proof.
  induction n as [|n IH]; intros l st Hlen.
  { exists []. destruct l; [done|discriminate]. }
  rewrite Nat.iter_succ_r.
  cbn [shuffle]. unfold randbelow, bind, ret. cbn beta iota.
  set (j := (N.to_nat (model_random (random_pos st)) `mod` length l)%nat).
  assert (Hj : (j < length l)%nat) by (apply Nat.mod_upper_bound; lia).
  destruct (lookup_lt_is_Some_2 _ _ Hj) as [x Hx]. rewrite Hx.
  destruct (IH (delete j l) (advance_random st)) as (rest & Hperm & Hs).
  { rewrite length_delete by eauto. lia. }
  exists (x :: rest). split.
  - rewrite Hperm. symmetry. by apply delete_Permutation.
  - by rewrite Hs.
Qed.

(** A tick is the activation, in the order of a permutation of the
    registered identities, from the state in which [moved] is 0. *)
Lemma tick_spec (st : State) :
  ∃ order, order ≡ₚ agent_keys st ∧
    SchellingModel_step model_random st =
    for_each order (activate model_random)
      (Nat.iter (length (agent_keys st)) advance_random (set_moved (Some 0) st)).
Proof.
  destruct (shuffle_spec (length (agent_keys st)) (agent_keys st)
              (set_moved (Some 0) st) eq_refl) as (order & Hperm & Hs).
  exists order. split; [done|].
  unfold SchellingModel_step, RandomActivation_step. py_unfold.
  by rewrite Hs.
Qed.

Lemma tick_inv (st : State) :
  state_inv st →
  let st' := snd (SchellingModel_step model_random st) in
  state_inv st' ∧ same_frame st st'.
Proof.
  intros Hinv. destruct (tick_spec st) as (order & _ & ->).
  set (st0 := Nat.iter _ _ _).
  destruct (iter_advance_fields (length (agent_keys st)) (set_moved (Some 0) st))
    as (Hk & Ha & Hg & _). fold st0 in Hk, Ha, Hg. simpl in *.
  assert (Hinv0 : state_inv st0) by by apply (state_inv_ext st).
  destruct (for_each_activate_inv order st0 Hinv0) as [Hinv' Hf].
  split; [done|]. eapply same_frame_trans; [|exact Hf].
  unfold same_frame. rewrite Hk, Ha, Hg. by repeat split.
Qed.

(** *** Ticks on which nothing moves, and ticks on a full grid *)

Lemma unhappy_ext (st st' : State) (key : AgentId) :
  agents st' = agents st → grid st' = grid st → unhappy st' key = unhappy st key.
Proof.
  intros Ha Hg.
  unfold unhappy, pct_similar_neighbors, neighbor_iter, occupant_at.
  by rewrite Ha, Hg.
Qed.

Lemma snapshot_ext (st st' : State) :
  agents st' = agents st → grid st' = grid st → snapshot st' = snapshot st.
Proof. intros Ha Hg. unfold snapshot, occupant_at. by rewrite Ha, Hg. Qed.

Lemma activate_happy (key : AgentId) (st : State) :
  unhappy st key = false →
  activate model_random key st = (Return tt, st).
Proof.
  unfold unhappy, activate. py_unfold.
  destruct (agents st !! key) as [a|]; [|done]. apply step_happy.
Qed.

Lemma activate_unhappy_full (key : AgentId) (st : State) :
  unhappy st key = true →
  empties (grid st) = ∅ →
  activate model_random key st = (Raise EmptyGridExhausted, st).
Proof.
  unfold unhappy, activate. py_unfold.
  destruct (agents st !! key) as [a|]; [|done]. apply step_unhappy_full.
Qed.

Lemma for_each_all_happy (order : list AgentId) (st : State) :
  (∀ key, unhappy st key = false) →
  for_each order (activate model_random) st = (Return tt, st).
Proof.
  intros Hhappy. induction order as [|key order IH]; [done|].
  simpl. unfold bind. by rewrite activate_happy.
Qed.

(** On a full grid the loop runs up to the first unhappy agent and is left
    there by the grid's exception; nothing has changed by then. *)
Lemma for_each_activate_full (order : list AgentId) (st : State) :
  empties (grid st) = ∅ →
  for_each order (activate model_random) st =
  if existsb (unhappy st) order then (Raise EmptyGridExhausted, st)
  else (Return tt, st).
Proof.
  intros He. induction order as [|key order IH]; [done|].
  simpl. unfold bind. destruct (unhappy st key) eqn:Hu; simpl.
  - by rewrite activate_unhappy_full.
  - by rewrite activate_happy.
Qed.


(** With thresholds at or below 0 every tick returns at once: the state
    keeps its grid and its agents, and the count is 0. *)
Lemma tick_nonpositive_threshold (st : State) :
  (∀ id a, agents st !! id = Some a → (homophily a <= 0)%Q) →
  ∃ st', SchellingModel_step model_random st = (Return tt, st') ∧
         grid st' = grid st ∧ agents st' = agents st ∧ moved st' = Some 0.
Proof.
  intros Hhom. destruct (tick_spec st) as (order & _ & ->).
  set (st0 := Nat.iter _ _ _).
  destruct (iter_advance_fields (length (agent_keys st)) (set_moved (Some 0) st))
    as (_ & Ha & Hg & Hm & _). fold st0 in Ha, Hg, Hm. simpl in *.
  exists st0. split; [|done].
  apply for_each_all_happy. intros key. unfold unhappy.
  destruct (agents st0 !! key) as [a|] eqn:Hl; [|done].
  apply np_mean_nonneg. apply (Hhom key). by rewrite <- Ha.
Qed.

Lemma run_nonpositive_threshold (n : nat) :
  ∀ st, (∀ id a, agents st !! id = Some a → (homophily a <= 0)%Q) →
  ∃ st', run model_random n st = (Return (repeat (snapshot st, Some 0) n), st') ∧
         grid st' = grid st ∧ agents st' = agents st.
Proof.
  induction n as [|n IH]; intros st Hhom; simpl.
  { by exists st. }
  destruct (tick_nonpositive_threshold st Hhom) as (st1 & Htick & Hg & Ha & Hm).
  destruct (IH st1) as (st2 & Hrun & Hg2 & Ha2).
  { intros id a. rewrite Ha. apply Hhom. }
  exists st2. py_unfold. rewrite Htick, Hrun.
  rewrite Hm, (snapshot_ext st st1) by done.
  repeat split; congruence.
Qed.

(** The agents that the constructor creates carry the threshold it was
    given. *)
Lemma init_cell_homophily (density hom : Q) (c : Coordinate) (st : State) :
  (∀ id a, agents st !! id = Some a → homophily a = hom) →
  ∀ id a, agents (snd (init_cell model_random np_random density hom c st)) !! id = Some a →
          homophily a = hom.
Proof.
  intros Hhom id a. unfold init_cell, random. py_unfold.
  destruct (Qltb _ density); simpl; [|apply Hhom].
  unfold np_random_choice; simpl.
  destruct (two_choices (N.to_nat (np_random (np_random_pos st)))) as [ty Hty].
  simpl in Hty. rewrite Hty. simpl.
  unfold schedule_add, place; simpl.
  assert (Hins : ∀ id a, <[c:=mkAgent c c ty hom]> (agents st) !! id = Some a →
                         homophily a = hom).
  { intros id' a'. destruct (decide (c = id')) as [->|Hne].
    - rewrite lookup_insert_eq. by intros [= <-].
    - rewrite lookup_insert_ne by done. apply Hhom. }
  destruct (out_of_bounds _ _); simpl; [apply Hins|].
  destruct (cells (grid st) !! c); simpl; [apply Hins|].
  destruct (decide (c = id)) as [->|Hne].
  - rewrite lookup_alter_eq, lookup_insert_eq. by intros [= <-].
  - rewrite lookup_alter_ne by done. apply Hins.
Qed.

Lemma init_homophily (w h : Z) (density hom : Q) (r0 n0 : nat) :
  ∀ id a,
    agents (snd (SchellingModel_init model_random np_random w h density hom
                   (blank r0 n0))) !! id = Some a →
    homophily a = hom.
Proof.
  unfold SchellingModel_init. py_unfold.
  apply (for_each_preserves (λ st, ∀ id a, agents st !! id = Some a → homophily a = hom)).
  - intros c st. apply init_cell_homophily.
  - intros id a. simpl. by rewrite lookup_empty.
Qed.

(** *** Ticks that run to their end *)






(** Every reachable state satisfies the invariant, on a torus of the
    dimensions given to the constructor. *)
Lemma reachable_inv (w h : Z) (density hom : Q) (r0 n0 : nat) (st : State) :
  reachable model_random np_random w h density hom r0 n0 st →
  state_inv st ∧ width (grid st) = w ∧ height (grid st) = h ∧ torus (grid st) = true.
Proof.
  induction 1 as [k|st self _ (Hinv & Hw & Hh & Ht) Hself
                   |st self _ (Hinv & Hw & Hh & Ht) Hself
                   |st _ (Hinv & Hw & Hh & Ht)].
  - destruct (init_upto_spec k w h density hom r0 n0) as (_ & ? & ? & ? & ? & _). done.
  - destruct (move_to_empty_inv self st Hinv Hself) as (? & Hw' & Hh' & Ht' & _).
    repeat (split; [done|]). repeat split; congruence.
  - destruct (step_inv self st Hinv Hself) as (? & Hw' & Hh' & Ht' & _).
    repeat (split; [done|]). repeat split; congruence.
  - destruct (tick_inv st Hinv) as (? & Hw' & Hh' & Ht' & _).
    repeat (split; [done|]). repeat split; congruence.
Qed.

End Invariant.

(** ** Wraparound *)

Lemma remove_dups_NoDup {A} `{EqDecision A} (l : list A) :
  NoDup l → remove_dups l = l.
Proof.
  induction 1 as [|x l Hx _ IH]; simpl; [done|].
  destruct (decide_rel elem_of x l); [done|]. by rewrite IH.
Qed.

(** On a side of at least three cells the three wrapped offsets of a
    coordinate are distinct. *)
Lemma wrap_injective (w x a b : Z) :
  3 ≤ w → -1 ≤ a ≤ 1 → -1 ≤ b ≤ 1 →
  (x + a) `mod` w = (x + b) `mod` w → a = b.
Proof.
  intros Hw Ha Hb Heq. apply Z.cong_iff_ex in Heq as [n Hn].
  assert (Hab : a - b = n * w) by lia.
  destruct (Z.lt_trichotomy n 0) as [Hn0|[->|Hn0]]; [|lia|].
  - assert (n * w ≤ -1 * w) by (apply Z.mul_le_mono_nonneg_r; lia). lia.
  - assert (1 * w ≤ n * w) by (apply Z.mul_le_mono_nonneg_r; lia). lia.
Qed.

Lemma moore_offsets_range (d : Z * Z) :
  d ∈ moore_offsets → -1 ≤ d.1 ≤ 1 ∧ -1 ≤ d.2 ≤ 1.
Proof.
  unfold moore_offsets. intros H.
  repeat (apply elem_of_cons in H as [->|H]; [simpl; lia|]).
  by apply elem_of_nil in H.
Qed.

Lemma moore_offsets_NoDup : NoDup moore_offsets.
Proof. apply (bool_decide_unpack _). by vm_compute. Qed.

Lemma torus_neighbors (g : SingleGrid) (p : Coordinate) :
  torus g = true → 3 ≤ width g → 3 ≤ height g →
  length (neighbors g p) = 8%nat ∧ NoDup (neighbors g p).
Proof.
  intros Ht Hw Hh. unfold neighbors. rewrite Ht.
  set (wrap := λ d : Z * Z, ((p.1 + d.1) `mod` width g, (p.2 + d.2) `mod` height g)).
  change (omap _ moore_offsets) with (wrap <$> moore_offsets).
  assert (Hnd : NoDup (wrap <$> moore_offsets)).
  { apply NoDup_fmap_2_strong; [|apply moore_offsets_NoDup].
    intros [a1 b1] [a2 b2] H1 H2 [= Hx Hy].
    apply moore_offsets_range in H1, H2. simpl in *.
    destruct H1 as [? ?], H2 as [? ?].
    f_equal; [apply (wrap_injective (width g) p.1)|apply (wrap_injective (height g) p.2)];
      assumption. }
  rewrite remove_dups_NoDup by done. split; [|done].
  by rewrite length_fmap.
Qed.

(** ** Runs on equal draws *)



Section Determinism.

(** Two pairs of random sources that deliver the same draws. *)
Variables m1 m2 n1 n2 : nat → N.
Hypothesis Hm : ∀ k, m1 k = m2 k.
Hypothesis Hn : ∀ k, n1 k = n2 k.














End Determinism.

(** ** The claims *)

Section Claims.

Variable model_random : nat → N.
Variable np_random : nat → N.




(** C5, amended.  On a grid without an empty cell, the relocation request
    of an unhappy agent raises [EmptyGridExhausted], and nothing handles
    it: the agent's step raises it, the scheduler's loop is left at that
    agent, whatever agents follow in the order, and the tick raises it.
    Up to there nothing is recorded and nothing moves: the state after the
    agent's step is the state before it, and after the tick the grid and
    the agents are as before, with 0 relocations counted. *)
Theorem exhausted_grid_error_leaves_the_tick (st : State) (key : AgentId) :
  empties (grid st) = ∅ →
  key ∈ agent_keys st →
  unhappy st key = true →
  (∀ self, agents st !! key = Some self →
     SchellingAgent_step model_random self st = (Raise EmptyGridExhausted, st)) ∧
  (∀ rest, for_each (key :: rest) (activate model_random) st =
           (Raise EmptyGridExhausted, st)) ∧
  let r := SchellingModel_step model_random st in
  fst r = Raise EmptyGridExhausted ∧
  grid (snd r) = grid st ∧ agents (snd r) = agents st ∧ moved (snd r) = Some 0.
Proof.
  intros He Hkey Hu. split; [|split].
  - intros self Hself. apply step_unhappy_full; [|done].
    unfold unhappy in Hu. by rewrite Hself in Hu.
  - intros rest. rewrite for_each_activate_full by done. simpl. by rewrite Hu.
  - destruct (tick_spec model_random st) as (order & Hperm & ->).
    set (st0 := Nat.iter _ _ _).
    destruct (iter_advance_fields (length (agent_keys st)) (set_moved (Some 0) st))
      as (_ & Ha & Hg & Hm & _). fold st0 in Ha, Hg, Hm. simpl in *.
    rewrite for_each_activate_full by (by rewrite Hg).
    assert (Hex : existsb (unhappy st0) order = true).
    { apply existsb_exists. exists key. split.
      - apply list_elem_of_In. by rewrite Hperm.
      - by rewrite (unhappy_ext st). }
    rewrite Hex. done.
Qed.


(** C7, amended.  The constructor does not look at the range of the
    density: for every density outside [[0, 1]] it returns normally.  A
    density above 1 registers an agent for every cell of the grid, a
    density below 0 registers none. *)
Theorem init_accepts_any_density (w h : Z) (density hom : Q) (r0 n0 : nat) :
  (density < 0)%Q ∨ (1 < density)%Q →
  let r := SchellingModel_init model_random np_random w h density hom (blank r0 n0) in
  fst r = Return tt ∧
  ((1 < density)%Q → agent_keys (snd r) = coord_iter w h) ∧
  ((density < 0)%Q → agent_keys (snd r) = []).
Proof.
  intros _ r. split; [|split].
  - unfold r. rewrite <- init_upto_all.
    by destruct (init_upto_spec model_random np_random (length (coord_iter w h))
                   w h density hom r0 n0) as (? & _).
  - intros Hd. unfold r, SchellingModel_init. py_unfold.
    rewrite init_loop_keys_full; [done|by apply Qlt_le_weak|apply NoDup_coord_iter| |].
    + constructor; simpl.
      * intros c. rewrite elem_of_list_to_set, lookup_empty.
        rewrite (out_of_bounds_false (mkGrid w h true ∅ _)). simpl. tauto.
      * intros c id Hl. by rewrite lookup_empty in Hl.
      * intros id a Hl. by rewrite lookup_empty in Hl.
      * apply NoDup_nil_2.
      * intros id. rewrite lookup_empty, elem_of_nil. split; [done|]. by intros [? ?].
    + intros c Hc. simpl. rewrite !lookup_empty. split; [|done].
      by apply (out_of_bounds_false (mkGrid w h true ∅ _)).
  - intros Hd. unfold r, SchellingModel_init. py_unfold.
    rewrite init_loop_keys_none; [done|by apply Qlt_le_weak].
Qed.

(** C8.  A model constructed with homophily 0: every tick of a run, the
    first included, returns with 0 relocations counted and with the
    snapshot of the constructed town; the grid and the agents after the
    run are those the constructor left, and the step of any agent in
    that town returns without touching the state. *)
Theorem zero_homophily_never_relocates
    (w h : Z) (density hom : Q) (r0 n0 : nat) (n : nat) :
  Qeq hom 0 →
  let st0 := snd (SchellingModel_init model_random np_random w h density hom
                    (blank r0 n0)) in
  (∃ st', run model_random n st0 = (Return (repeat (snapshot st0, Some 0) n), st') ∧
          grid st' = grid st0 ∧ agents st' = agents st0) ∧
  (∀ key self, agents st0 !! key = Some self →
     SchellingAgent_step model_random self st0 = (Return tt, st0)).
Proof.
  intros Hzero st0.
  assert (Hhom : ∀ id a, agents st0 !! id = Some a → (homophily a <= 0)%Q).
  { intros id a Ha. rewrite (init_homophily _ _ _ _ _ _ _ _ _ _ Ha).
    by apply Qle_lteq; right. }
  split.
  - by apply run_nonpositive_threshold.
  - intros key self Hself. apply step_happy, np_mean_nonneg. by eapply Hhom.
Qed.

(** C9.  An agent none of whose neighbouring cells is occupied: the mean of
    the empty list is NaN, the comparison with the threshold is false
    whatever the threshold, and the step returns without any effect. *)
Theorem no_occupied_neighbor_no_relocation (self : SchellingAgent) (st : State) :
  neighbor_iter st (pos self) = [] →
  pct_similar_neighbors self st = None ∧
  (∀ h, float_lt (pct_similar_neighbors self st) h = false) ∧
  SchellingAgent_step model_random self st = (Return tt, st).
Proof.
  intros Hnone.
  assert (Hnan : pct_similar_neighbors self st = None).
  { unfold pct_similar_neighbors. by rewrite Hnone. }
  split; [done|]. split.
  - intros h. by rewrite Hnan.
  - apply step_happy. by rewrite Hnan.
Qed.

(** C10.  The constructor always builds the grid with [torus=True] and
    nothing changes the flag, so in every reachable state of a model of
    width and height at least 3 the neighbours of any position are
    exactly eight distinct coordinates. *)
Theorem reachable_torus_neighbors_are_eight
    (w h : Z) (density hom : Q) (r0 n0 : nat) (st : State) (p : Coordinate) :
  reachable model_random np_random w h density hom r0 n0 st →
  3 ≤ w → 3 ≤ h →
  torus (grid st) = true ∧
  length (neighbors (grid st) p) = 8%nat ∧
  NoDup (neighbors (grid st) p).
Proof.
  intros Hreach Hw Hh.
  apply reachable_inv in Hreach as (_ & Hw' & Hh' & Ht).
  split; [done|]. apply torus_neighbors; [done|lia|lia].
Qed.

End Claims.

(** ** The claims on concrete towns *)

Lemma crowded_full : empties (grid crowded) = ∅.
Proof.
  apply set_eq. intros c. rewrite <- elem_of_elements.
  replace (elements (empties (grid crowded))) with (@nil Coordinate)
    by (vm_compute; reflexivity).
  by rewrite elem_of_nil, elem_of_empty.
Qed.

Lemma init_state_inv (m np : nat → N) (w h : Z) (density hom : Q) (r0 n0 : nat) :
  state_inv (snd (SchellingModel_init m np w h density hom (blank r0 n0))).
Proof.
  rewrite <- init_upto_all.
  by destruct (init_upto_spec m np (length (coord_iter w h)) w h density hom r0 n0)
    as (_ & ? & _).
Qed.







Lemma exhausted_grid_error_leaves_the_tick_witness :
  (∀ self, agents crowded !! (0, 0) = Some self →
     SchellingAgent_step always_zero self crowded = (Raise EmptyGridExhausted, crowded)) ∧
  (∀ rest, for_each ((0, 0) :: rest) (activate always_zero) crowded =
           (Raise EmptyGridExhausted, crowded)) ∧
  let r := SchellingModel_step always_zero crowded in
  fst r = Raise EmptyGridExhausted ∧
  grid (snd r) = grid crowded ∧ agents (snd r) = agents crowded ∧ moved (snd r) = Some 0.
Proof.
  apply (exhausted_grid_error_leaves_the_tick always_zero crowded (0, 0)).
  - apply crowded_full.
  - vm_compute. left.
  - vm_compute. reflexivity.
Defined.

(** C5 as stated fails: on the full 3 by 3 town the triangle of (0, 0) is
    unhappy, no cell is empty, and the tick ends with the grid's exception
    instead of returning. *)
Lemma full_grid_tick_raises :
  agents crowded !! (0, 0) = Some corner_triangle ∧
  float_lt (pct_similar_neighbors corner_triangle crowded)
           (homophily corner_triangle) = true ∧
  elements (empties (grid crowded)) = [] ∧
  fst (SchellingAgent_step always_zero corner_triangle crowded) = Raise EmptyGridExhausted ∧
  fst (SchellingModel_step always_zero crowded) = Raise EmptyGridExhausted ∧
  fst (SchellingModel_step always_zero crowded) ≠ Return tt.
Proof. repeat split; try (vm_compute; reflexivity). vm_compute. discriminate. Qed.



Lemma init_accepts_any_density_witness :
  let r := SchellingModel_init always_zero always_zero 2 2 2 (1 # 2) (blank 0 0) in
  fst r = Return tt ∧
  ((1 < 2)%Q → agent_keys (snd r) = coord_iter 2 2) ∧
  ((2 < 0)%Q → agent_keys (snd r) = []).
Proof.
  apply (init_accepts_any_density always_zero always_zero 2 2 2 (1 # 2) 0 0).
  right. reflexivity.
Defined.

(** C7 as stated fails: with density 2 the constructor returns, and has
    placed an agent on each of the four cells. *)
Lemma density_two_is_accepted :
  let r := SchellingModel_init always_zero always_zero 2 2 2 (1 # 2) (blank 0 0) in
  ¬ (0 <= 2 <= 1)%Q ∧
  fst r = Return tt ∧
  agent_keys (snd r) = [(0, 0); (0, 1); (1, 0); (1, 1)] ∧
  elements (empties (grid (snd r))) = [].
Proof.
  split; [|repeat split; vm_compute; reflexivity].
  intros [_ H]. vm_compute in H. by apply H.
Qed.

Lemma zero_homophily_never_relocates_witness :
  let st0 := snd (SchellingModel_init (high_at 15) three_triangles 4 4 (1 # 2) (0 # 3)
                    (blank 0 0)) in
  (∃ st', run (high_at 15) 2 st0 = (Return (repeat (snapshot st0, Some 0) 2), st') ∧
          grid st' = grid st0 ∧ agents st' = agents st0) ∧
  (∀ key self, agents st0 !! key = Some self →
     SchellingAgent_step (high_at 15) self st0 = (Return tt, st0)).
Proof.
  apply (zero_homophily_never_relocates (high_at 15) three_triangles 4 4 (1 # 2) (0 # 3) 0 0 2).
  reflexivity.
Defined.

Lemma no_occupied_neighbor_no_relocation_witness :
  pct_similar_neighbors corner_triangle lonely = None ∧
  (∀ h, float_lt (pct_similar_neighbors corner_triangle lonely) h = false) ∧
  SchellingAgent_step low_first corner_triangle lonely = (Return tt, lonely).
Proof.
  apply (no_occupied_neighbor_no_relocation low_first corner_triangle lonely).
  vm_compute. reflexivity.
Defined.

Lemma reachable_torus_neighbors_are_eight_witness :
  torus (grid roomy) = true ∧
  length (neighbors (grid roomy) (0, 3)) = 8%nat ∧
  NoDup (neighbors (grid roomy) (0, 3)).
Proof.
  apply (reachable_torus_neighbors_are_eight
           (high_at 15) three_triangles 4 4 (1 # 2) (1 # 2) 0 0).
  - unfold roomy. rewrite <- init_upto_all. apply reach_init.
  - lia.
  - lia.
Defined.

(** * Further properties of the notebook's code *)

(** ** The constructor *)

Lemma two_choices_cases (k : nat) :
  ∃ ty, (["triangle"; "square"]%string : list string) !! (k `mod` 2)%nat = Some ty ∧
        (ty = "triangle"%string ∨ ty = "square"%string).
Proof.
  assert (H : (k `mod` 2 < 2)%nat) by (apply Nat.mod_upper_bound; lia).
  destruct (k `mod` 2)%nat as [|[|?]]; simpl; eauto; lia.
Qed.

Lemma populated_sublist (m : nat → N) (density : Q) (cs : list Coordinate) :
  ∀ p, populated m density p cs `sublist_of` cs.
Proof.
  induction cs as [|c cs IH]; intros p; simpl; [done|].
  destruct (Qltb _ _); [by apply sublist_skip|by apply sublist_cons].
Qed.

Lemma coord_iter_empty (w h : Z) : w ≤ 0 ∨ h ≤ 0 → coord_iter w h = [].
Proof.
  intros Hwh. apply elem_of_nil_inv. intros c Hc.
  apply elem_of_coord_iter in Hc. lia.
Qed.

Lemma length_coord_iter (w h : Z) :
  length (coord_iter w h) = (Z.to_nat w * Z.to_nat h)%nat.
Proof.
  unfold coord_iter. rewrite <- (length_seqZ 0 w), <- (length_seqZ 0 h).
  induction (seqZ 0 w) as [|x xs IH]; [done|].
  cbn [mbind list_bind]. rewrite length_app, IH. simpl. f_equal.
  generalize (seqZ 0 h). intros ys. induction ys as [|y ys IHy]; [done|].
  cbn [mbind list_bind]. rewrite length_app, IHy. done.
Qed.

Section Constructor.

Variable model_random : nat → N.
Variable np_random : nat → N.

(** Every agent that one iteration of the loop leaves in the scheduler
    stands for its own cell, with one of the two types and the threshold
    of the model. *)
Lemma init_cell_agents (density hom : Q) (c : Coordinate) (st : State) :
  (∀ id a, agents st !! id = Some a →
           unique_id a = id ∧ pos a = id ∧ well_typed hom a) →
  ∀ id a, agents (snd (init_cell model_random np_random density hom c st)) !! id = Some a →
          unique_id a = id ∧ pos a = id ∧ well_typed hom a.
Proof.
  intros Hold id a. unfold init_cell, random. py_unfold.
  destruct (Qltb _ density); simpl; [|apply Hold].
  unfold np_random_choice; simpl.
  destruct (two_choices_cases (N.to_nat (np_random (np_random_pos st))))
    as (ty & Hty & Hcase).
  simpl in Hty. rewrite Hty. simpl.
  unfold schedule_add, place; simpl.
  assert (Hins : ∀ id a, <[c:=mkAgent c c ty hom]> (agents st) !! id = Some a →
            unique_id a = id ∧ pos a = id ∧ well_typed hom a).
  { intros id' a'. destruct (decide (c = id')) as [->|Hne].
    - rewrite lookup_insert_eq. intros [= <-]. unfold well_typed. simpl. auto.
    - rewrite lookup_insert_ne by done. apply Hold. }
  destruct (out_of_bounds _ _); simpl; [apply Hins|].
  destruct (cells (grid st) !! c); simpl; [apply Hins|].
  destruct (decide (c = id)) as [->|Hne].
  - rewrite lookup_alter_eq, lookup_insert_eq. intros [= <-].
    unfold well_typed. simpl. auto.
  - rewrite lookup_alter_ne by done. apply Hins.
Qed.


(** The draws that one iteration of the loop makes. *)
Lemma init_cell_draws (density hom : Q) (c : Coordinate) (st : State) :
  let st' := snd (init_cell model_random np_random density hom c st) in
  random_pos st' = S (random_pos st) ∧
  np_random_pos st' =
    if Qltb (unit_float (model_random (random_pos st))) density
    then S (np_random_pos st) else np_random_pos st.
Proof.
  unfold init_cell, random. py_unfold.
  destruct (Qltb _ density); simpl; [|done].
  unfold np_random_choice; simpl.
  destruct (two_choices (N.to_nat (np_random (np_random_pos st)))) as [ty Hty].
  simpl in Hty. rewrite Hty. simpl.
  unfold schedule_add, place; simpl.
  destruct (out_of_bounds _ _); simpl; [done|].
  by destruct (cells (grid st) !! c).
Qed.

Lemma init_loop_populated (density hom : Q) (cs : list Coordinate) :
  NoDup cs →
  ∀ st, state_inv st →
  (∀ c, c ∈ cs → out_of_bounds (grid st) c = false ∧
                 cells (grid st) !! c = None ∧ agents st !! c = None) →
  let st' := snd (for_each cs (init_cell model_random np_random density hom) st) in
  let ks := populated model_random density (random_pos st) cs in
  agent_keys st' = agent_keys st ++ ks ∧
  random_pos st' = (length cs + random_pos st)%nat ∧
  np_random_pos st' = (length ks + np_random_pos st)%nat.
Proof.
  induction 1 as [|c cs Hnin Hnd IH]; intros st Hinv Hfresh; simpl.
  { by rewrite app_nil_r. }
  destruct (Hfresh c) as (Hb & Hc & Ha); [by left|].
  destruct (init_cell_spec model_random np_random density hom c st Hinv Hb Hc Ha)
    as (Hr & Hinv1 & Hw & Hh & Ht & Hm & Hother).
  pose proof (init_cell_keys model_random np_random density hom c st Ha) as Hkeys.
  destruct (init_cell_draws density hom c st) as [Hrp Hnp].
  unfold bind.
  destruct (init_cell model_random np_random density hom c st) as [o st1].
  simpl in *. subst o.
  destruct (IH st1 Hinv1) as (Hk2 & Hr2 & Hn2).
  { intros c' Hc'. assert (c' ≠ c) by (intros ->; done).
    destruct (Hfresh c') as (Hb' & Hc'' & Ha'); [by right|].
    destruct (Hother c') as [-> ->]; [done|].
    rewrite (out_of_bounds_shape (grid st)) by done. done. }
  rewrite Hk2, Hr2, Hn2, Hrp, Hkeys, Hnp.
  destruct (Qltb _ density); simpl.
  - rewrite <- app_assoc. simpl. repeat split; lia.
  - repeat split; lia.
Qed.

(** X2.  The population that [SchellingModel.__init__] creates: the
    registered identities are cells of the grid, in the order of
    [coord_iter()] and none twice, so there are at most width times height
    agents, and none when the width or the height is not positive; numpy's
    generator has been drawn from once for each agent. *)
Theorem init_registers_cells_in_iteration_order
    (w h : Z) (density hom : Q) (r0 n0 : nat) :
  let st := snd (SchellingModel_init model_random np_random w h density hom
                   (blank r0 n0)) in
  agent_keys st `sublist_of` coord_iter w h ∧
  NoDup (agent_keys st) ∧
  (length (agent_keys st) ≤ Z.to_nat w * Z.to_nat h)%nat ∧
  (w ≤ 0 ∨ h ≤ 0 → agent_keys st = []) ∧
  np_random_pos st = (length (agent_keys st) + n0)%nat.
Proof.
  intros st.
  assert (H : agent_keys st = populated model_random density r0 (coord_iter w h) ∧
              random_pos st = (length (coord_iter w h) + r0)%nat ∧
              np_random_pos st =
                (length (populated model_random density r0 (coord_iter w h)) + n0)%nat).
  { unfold st, SchellingModel_init. py_unfold.
    apply (init_loop_populated density hom (coord_iter w h)).
    - apply NoDup_coord_iter.
    - constructor; simpl.
      + intros c. rewrite elem_of_list_to_set, lookup_empty.
        rewrite (out_of_bounds_false (mkGrid w h true ∅ _)). simpl. tauto.
      + intros c id Hl. by rewrite lookup_empty in Hl.
      + intros id a Hl. by rewrite lookup_empty in Hl.
      + apply NoDup_nil_2.
      + intros id. rewrite lookup_empty, elem_of_nil. split; [done|]. by intros [? ?].
    - intros c Hc. simpl. rewrite !lookup_empty. split; [|done].
      by apply (out_of_bounds_false (mkGrid w h true ∅ _)). }
  destruct H as (Hk & Hr & Hn).
  assert (Hsub : agent_keys st `sublist_of` coord_iter w h).
  { rewrite Hk. apply populated_sublist. }
  split; [done|]. split; [|split; [|split]].
  - eapply sublist_NoDup; [apply NoDup_coord_iter|done].
  - rewrite <- length_coord_iter. by apply sublist_length.
  - intros Hwh. rewrite Hk, (coord_iter_empty w h Hwh). done.
  - by rewrite Hk.
Qed.

End Constructor.

(** ** The step of an agent and the tick *)

Lemma static_fields_kept_refl (st : State) : static_fields_kept st st.
Proof. intros id a Ha. by exists a. Qed.

Lemma static_fields_kept_trans (st1 st2 st3 : State) :
  static_fields_kept st1 st2 → static_fields_kept st2 st3 → static_fields_kept st1 st3.
Proof.
  intros H12 H23 id a3 Ha3.
  destruct (H23 _ _ Ha3) as (a2 & Ha2 & ? & ? & ?).
  destruct (H12 _ _ Ha2) as (a1 & Ha1 & ? & ? & ?).
  exists a1. repeat split; congruence.
Qed.

Lemma static_fields_kept_ext (st st1 st2 : State) :
  agents st2 = agents st1 → static_fields_kept st st1 → static_fields_kept st st2.
Proof. unfold static_fields_kept. by intros ->. Qed.

Lemma relocated_static (self : SchellingAgent) (c : Coordinate) (st : State) :
  static_fields_kept st (relocated self c st).
Proof.
  intros id a'. simpl. destruct (decide (unique_id self = id)) as [<-|Hne].
  - rewrite lookup_alter_eq. destruct (agents st !! unique_id self) as [a|]; [|done].
    simpl. intros [= <-]. by exists a.
  - rewrite lookup_alter_ne by done. intros Ha. by exists a'.
Qed.

Section Dynamics.

Variable model_random : nat → N.

Lemma step_static (self : SchellingAgent) (st : State) :
  state_inv st →
  agents st !! unique_id self = Some self →
  static_fields_kept st (snd (SchellingAgent_step model_random self st)).
Proof.
  intros Hinv Hself.
  destruct (step_cases model_random self st Hinv Hself) as [->|(c & Hc & [->|[m ->]])].
  - apply static_fields_kept_refl.
  - apply relocated_static.
  - apply (static_fields_kept_ext _ (relocated self c st)); [done|apply relocated_static].
Qed.

Lemma activate_static (key : AgentId) (st : State) :
  state_inv st →
  static_fields_kept st (snd (activate model_random key st)).
Proof.
  intros Hinv. unfold activate. py_unfold.
  destruct (agents st !! key) as [a|] eqn:Ha; [|apply static_fields_kept_refl].
  destruct (inv_agents st Hinv _ _ Ha) as [<- _]. by apply step_static.
Qed.

Lemma for_each_activate_static (order : list AgentId) (st : State) :
  state_inv st →
  static_fields_kept st (snd (for_each order (activate model_random) st)).
Proof.
  intros Hinv.
  apply (for_each_preserves (λ st', state_inv st' ∧ static_fields_kept st st'));
    [|split; [done|apply static_fields_kept_refl]].
  intros key st1 [Hinv1 H1]. split.
  - by apply activate_inv.
  - eapply static_fields_kept_trans; [exact H1|by apply activate_static].
Qed.

Lemma tick_static (st : State) :
  state_inv st →
  static_fields_kept st (snd (SchellingModel_step model_random st)).
Proof.
  intros Hinv. destruct (tick_spec model_random st) as (order & _ & ->).
  set (st0 := Nat.iter _ _ _).
  destruct (iter_advance_fields (length (agent_keys st)) (set_moved (Some 0) st))
    as (Hk & Ha & Hg & _). fold st0 in Hk, Ha, Hg. simpl in *.
  assert (Hinv0 : state_inv st0) by by apply (state_inv_ext st).
  eapply static_fields_kept_trans; [|by apply for_each_activate_static].
  apply (static_fields_kept_ext _ st); [done|apply static_fields_kept_refl].
Qed.

(** X4.  The step of a registered agent leaves every other agent as it
    was and leaves every other agent on its cell; of the agent itself it
    can change the position only, not the identity, the type or the
    threshold. *)
Theorem step_moves_only_the_agent_itself (self : SchellingAgent) (st : State) :
  state_inv st →
  agents st !! unique_id self = Some self →
  let st' := snd (SchellingAgent_step model_random self st) in
  (∀ id, id ≠ unique_id self → agents st' !! id = agents st !! id) ∧
  (∀ c id, id ≠ unique_id self →
     cells (grid st) !! c = Some id → cells (grid st') !! c = Some id) ∧
  (∃ a', agents st' !! unique_id self = Some a' ∧
         unique_id a' = unique_id self ∧ type a' = type self ∧
         homophily a' = homophily self).
Proof.
  intros Hinv Hself.
  assert (Hrel : ∀ c,
    c ∈ empties (grid st) →
    (∀ id, id ≠ unique_id self →
       agents (relocated self c st) !! id = agents st !! id) ∧
    (∀ c' id, id ≠ unique_id self →
       cells (grid st) !! c' = Some id →
       cells (grid (relocated self c st)) !! c' = Some id) ∧
    (∃ a', agents (relocated self c st) !! unique_id self = Some a' ∧
           unique_id a' = unique_id self ∧ type a' = type self ∧
           homophily a' = homophily self)).
  { intros c Hc. simpl. split; [|split].
    - intros id Hne. by rewrite lookup_alter_ne.
    - intros c' id Hne Hc'.
      destruct (inv_agents st Hinv _ _ Hself) as [_ Hcell].
      apply (inv_empties st Hinv) in Hc as [_ Hnone].
      rewrite lookup_insert_ne by (intros ->; congruence).
      rewrite lookup_delete_ne; [done|]. intros Heq. rewrite Heq in Hcell. congruence.
    - exists (set_pos c self). by rewrite lookup_alter_eq, Hself. }
  destruct (step_cases model_random self st Hinv Hself) as [->|(c & Hc & [->|[m ->]])].
  - split; [done|]. split; [done|]. by exists self.
  - by apply Hrel.
  - by apply Hrel.
Qed.

(** X5.  [SchellingAgent.step] counts on [SchellingModel.step] having
    created [moved]: the step of an unhappy agent in a model that has not
    ticked yet, on a grid with an empty cell, first relocates the agent and
    then raises [AttributeError] at [self.model.moved += 1]. *)
Theorem step_before_the_first_tick_moves_then_raises
    (self : SchellingAgent) (st : State) :
  state_inv st →
  agents st !! unique_id self = Some self →
  moved st = None →
  float_lt (pct_similar_neighbors self st) (homophily self) = true →
  empties (grid st) ≠ ∅ →
  let r := SchellingAgent_step model_random self st in
  fst r = Raise AttributeError ∧
  moved (snd r) = None ∧
  ∃ c, c ∈ empties (grid st) ∧ c ≠ pos self ∧
       cells (grid (snd r)) !! c = Some (unique_id self) ∧
       cells (grid (snd r)) !! pos self = None ∧
       pos <$> agents (snd r) !! unique_id self = Some c.
Proof.
  intros Hinv Hself Hm Hlt Hne.
  destruct (step_unhappy_some model_random self st Hinv Hself Hlt Hne) as (c & Hc & Heq).
  rewrite Hm in Heq. intros r. unfold r. rewrite Heq. simpl.
  split; [done|]. split; [done|]. exists c.
  destruct (inv_agents st Hinv _ _ Hself) as [_ Hcell].
  pose proof Hc as Hc'. apply (inv_empties st Hinv) in Hc' as [_ Hnone].
  assert (Hpc : c ≠ pos self) by (intros ->; congruence).
  split; [done|]. split; [done|].
  rewrite lookup_insert_eq, lookup_insert_ne, lookup_delete_eq, lookup_alter_eq, Hself by done.
  done.
Qed.

(** *** The relocation count *)

Lemma activate_as_step (key : AgentId) (a : SchellingAgent) (st : State) :
  agents st !! key = Some a →
  activate model_random key st = SchellingAgent_step model_random a st.
Proof. intros Ha. unfold activate. py_unfold. by rewrite Ha. Qed.

(** An activation adds 0 or 1 to the count. *)
Lemma activate_moved (key : AgentId) (st : State) (m : Z) :
  state_inv st →
  moved st = Some m →
  moved (snd (activate model_random key st)) = Some m ∨
  moved (snd (activate model_random key st)) = Some (m + 1).
Proof.
  intros Hinv Hm. unfold activate. py_unfold.
  destruct (agents st !! key) as [a|] eqn:Ha; [|by left].
  destruct (inv_agents st Hinv _ _ Ha) as [<- _].
  destruct (float_lt (pct_similar_neighbors a st) (homophily a)) eqn:Hlt.
  - destruct (decide (empties (grid st) = ∅)) as [He|Hne].
    + rewrite step_unhappy_full by done. by left.
    + destruct (step_unhappy_some model_random a st Hinv Ha Hlt Hne) as (c & _ & ->).
      rewrite Hm. by right.
  - rewrite step_happy by done. by left.
Qed.

Lemma for_each_moved (order : list AgentId) :
  ∀ st m, state_inv st → moved st = Some m →
  ∃ m', moved (snd (for_each order (activate model_random) st)) = Some m' ∧
        m ≤ m' ≤ m + Z.of_nat (length order).
Proof.
  induction order as [|key order IH]; intros st m Hinv Hm.
  { exists m. simpl. split; [done|lia]. }
  simpl. unfold bind.
  destruct (activate_inv model_random key st Hinv) as [Hinv1 _].
  pose proof (activate_moved key st m Hinv Hm) as Hcase.
  destruct (activate model_random key st) as [[[]|e] st1]; simpl in *.
  - destruct Hcase as [Hm1|Hm1];
      destruct (IH st1 _ Hinv1 Hm1) as (m' & Hm' & Hle); exists m'; split; [done|lia|done|lia].
  - destruct Hcase as [Hm1|Hm1]; eexists; (split; [exact Hm1|lia]).
Qed.

(** X6.  After [SchellingModel.step], however it ends, [moved] holds a
    count between 0 and the number of registered agents, whatever it held
    before. *)
Theorem tick_counts_at_most_the_population (st : State) :
  state_inv st →
  ∃ m, moved (snd (SchellingModel_step model_random st)) = Some m ∧
       0 ≤ m ≤ Z.of_nat (length (agent_keys st)).
Proof.
  intros Hinv. destruct (tick_spec model_random st) as (order & Hperm & ->).
  set (st0 := Nat.iter _ _ _).
  destruct (iter_advance_fields (length (agent_keys st)) (set_moved (Some 0) st))
    as (Hk & Ha & Hg & Hm & _). fold st0 in Hk, Ha, Hg, Hm. simpl in *.
  assert (Hinv0 : state_inv st0) by by apply (state_inv_ext st).
  destruct (for_each_moved order st0 0 Hinv0 Hm) as (m & Hm' & Hle).
  exists m. split; [done|]. rewrite <- (Permutation_length Hperm). lia.
Qed.

(** A loop that returns with the count it started from has found every
    agent of its order happy and has changed nothing. *)
Lemma for_each_unmoved (order : list AgentId) :
  ∀ st st' m, state_inv st → moved st = Some m →
  for_each order (activate model_random) st = (Return tt, st') →
  moved st' = Some m →
  st' = st ∧ ∀ key, key ∈ order → unhappy st key = false.
Proof.
  induction order as [|key order IH]; intros st st' m Hinv Hm Hrun Hm'.
  { simpl in Hrun. injection Hrun as <-. split; [done|].
    intros key Hin. by apply elem_of_nil in Hin. }
  simpl in Hrun. unfold bind in Hrun.
  destruct (unhappy st key) eqn:Hu.
  - exfalso. unfold unhappy in Hu.
    destruct (agents st !! key) as [a|] eqn:Ha; [|done].
    destruct (inv_agents st Hinv _ _ Ha) as [Hid _].
    rewrite (activate_as_step key a st Ha) in Hrun.
    destruct (decide (empties (grid st) = ∅)) as [He|Hne].
    { rewrite step_unhappy_full in Hrun by done. discriminate. }
    rewrite <- Hid in Ha.
    destruct (step_unhappy_some model_random a st Hinv Ha Hu Hne) as (c & Hc & Heq).
    rewrite Heq, Hm in Hrun.
    assert (Hinv1 : state_inv (set_moved (Some (m + 1)) (relocated a c st))).
    { apply (state_inv_ext (relocated a c st)); try done. by apply relocated_inv. }
    destruct (for_each_moved order _ (m + 1) Hinv1 eq_refl) as (m' & Hmm & Hle).
    rewrite Hrun in Hmm. simpl in Hmm. rewrite Hm' in Hmm.
    injection Hmm as <-. lia.
  - rewrite activate_happy in Hrun by done.
    destruct (IH st st' m Hinv Hm Hrun Hm') as [-> Hrest]. split; [done|].
    intros key' Hin. apply elem_of_cons in Hin as [->|Hin]; [done|by apply Hrest].
Qed.

Lemma all_registered_happy (st : State) :
  state_inv st →
  (∀ key, key ∈ agent_keys st → unhappy st key = false) →
  ∀ key, unhappy st key = false.
Proof.
  intros Hinv Hreg key. destruct (decide (key ∈ agent_keys st)) as [Hin|Hnin]; [auto|].
  unfold unhappy. destruct (agents st !! key) as [a|] eqn:Ha; [|done].
  exfalso. apply Hnin, (inv_keys st Hinv). by eexists.
Qed.


Lemma tick_all_happy (st : State) :
  (∀ key, unhappy st key = false) →
  ∃ st', SchellingModel_step model_random st = (Return tt, st') ∧
         grid st' = grid st ∧ agents st' = agents st ∧ moved st' = Some 0.
Proof.
  intros Hhappy. destruct (tick_spec model_random st) as (order & _ & ->).
  set (st0 := Nat.iter _ _ _).
  destruct (iter_advance_fields (length (agent_keys st)) (set_moved (Some 0) st))
    as (_ & Ha & Hg & Hm & _). fold st0 in Ha, Hg, Hm. simpl in *.
  exists st0. split; [|done].
  apply for_each_all_happy. intros key. by rewrite (unhappy_ext st st0).
Qed.

Lemma run_all_happy (n : nat) :
  ∀ st, (∀ key, unhappy st key = false) →
  ∃ st', run model_random n st = (Return (repeat (snapshot st, Some 0) n), st') ∧
         grid st' = grid st ∧ agents st' = agents st.
Proof.
  induction n as [|n IH]; intros st Hhappy; simpl.
  { by exists st. }
  destruct (tick_all_happy st Hhappy) as (st1 & Htick & Hg & Ha & Hm).
  destruct (IH st1) as (st2 & Hrun & Hg2 & Ha2).
  { intros key. by rewrite (unhappy_ext st st1). }
  exists st2. py_unfold. rewrite Htick, Hrun.
  rewrite Hm, (snapshot_ext st st1) by done.
  repeat split; congruence.
Qed.

(** X8.  A town in which a tick has moved nobody is at rest for good: every
    later tick returns with 0 agents moved and shows the same snapshot. *)
Theorem stable_town_stays_stable (st : State) (n : nat) :
  state_inv st →
  fst (SchellingModel_step model_random st) = Return tt →
  moved (snd (SchellingModel_step model_random st)) = Some 0 →
  ∃ st', run model_random n (snd (SchellingModel_step model_random st)) =
           (Return (repeat (snapshot st, Some 0) n), st') ∧
         grid st' = grid st ∧ agents st' = agents st.
Proof.
  intros Hinv Hret Hm.
  destruct (tick_spec model_random st) as (order & Hperm & Htick).
  set (st0 := Nat.iter _ _ _) in Htick.
  destruct (iter_advance_fields (length (agent_keys st)) (set_moved (Some 0) st))
    as (Hk & Ha & Hg & Hm0 & _). fold st0 in Hk, Ha, Hg, Hm0. simpl in *.
  assert (Hinv0 : state_inv st0) by by apply (state_inv_ext st).
  rewrite Htick in Hret, Hm |- *.
  destruct (for_each order (activate model_random) st0) as [o st'] eqn:Hrun.
  simpl in *. subst o.
  destruct (for_each_unmoved order st0 st' 0 Hinv0 Hm0 Hrun Hm) as [-> Hhappy].
  destruct (run_all_happy n st0) as (st2 & Hrun2 & Hg2 & Ha2).
  { apply all_registered_happy; [done|]. intros key Hin. apply Hhappy.
    rewrite Hperm. by rewrite <- Hk. }
  exists st2. rewrite Hrun2, (snapshot_ext st st0) by done.
  repeat split; congruence.
Qed.

End Dynamics.

(** ** Agents and cells over a run *)



Section Population.

Variable model_random : nat → N.
Variable np_random : nat → N.

Lemma reachable_well_typed
    (w h : Z) (density hom : Q) (r0 n0 : nat) (st : State) :
  reachable model_random np_random w h density hom r0 n0 st →
  ∀ id a, agents st !! id = Some a → unique_id a = id ∧ well_typed hom a.
Proof.
  intros Hreach.
  assert (Hkept : ∀ st st', static_fields_kept st st' →
            (∀ id a, agents st !! id = Some a →
               unique_id a = id ∧ well_typed hom a) →
            ∀ id a, agents st' !! id = Some a →
               unique_id a = id ∧ well_typed hom a).
  { intros st1 st2 Hs Hold id a' Ha'. destruct (Hs _ _ Ha') as (a & Ha & Hid & Hty & Hh).
    destruct (Hold _ _ Ha) as (? & ? & ?).
    unfold well_typed. rewrite Hid, Hty, Hh. done. }
  induction Hreach as [k|st self Hreach IH Hself|st self Hreach IH Hself|st Hreach IH].
  - unfold init_upto. py_unfold.
    assert (H : ∀ st, (∀ id a, agents st !! id = Some a →
                         unique_id a = id ∧ pos a = id ∧ well_typed hom a) →
                      ∀ id a, agents st !! id = Some a → unique_id a = id ∧ well_typed hom a).
    { intros st H id a Ha. destruct (H id a Ha) as (? & ? & ?). done. }
    apply H.
    apply (for_each_preserves
             (λ st, ∀ id a, agents st !! id = Some a →
                            unique_id a = id ∧ pos a = id ∧ well_typed hom a)).
    + intros c st. apply init_cell_agents.
    + intros id a. simpl. by rewrite lookup_empty.
  - apply reachable_inv in Hreach as [Hinv _].
    apply (Hkept st); [|done].
    destruct (decide (empties (grid st) = ∅)) as [He|Hne].
    + rewrite move_to_empty_full by done. apply static_fields_kept_refl.
    + destruct (move_to_empty_some model_random self st Hinv Hself Hne) as (c & _ & ->).
      apply relocated_static.
  - apply reachable_inv in Hreach as [Hinv _].
    apply (Hkept st); [|done]. by apply step_static.
  - apply reachable_inv in Hreach as [Hinv _].
    apply (Hkept st); [|done]. by apply tick_static.
Qed.

(** X3.  In every reachable state an agent is registered under its own
    identity, has the type "triangle" or "square", and has the homophily
    that was given to the constructor: no step and no tick changes the
    type or the threshold of an agent. *)
Theorem reachable_agents_keep_type_and_threshold
    (w h : Z) (density hom : Q) (r0 n0 : nat) (st : State) :
  reachable model_random np_random w h density hom r0 n0 st →
  ∀ id a, agents st !! id = Some a →
    unique_id a = id ∧ (type a = "triangle" ∨ type a = "square") ∧ homophily a = hom.
Proof.
  intros Hreach id a Ha.
  destruct (reachable_well_typed w h density hom r0 n0 st Hreach id a Ha) as (? & ? & ?).
  done.
Qed.


End Population.

(** ** The picture of [viz_state] *)





Section Picture.

Variable model_random : nat → N.
Variable np_random : nat → N.



End Picture.

(** ** The toy model *)

(** The scheduler of the Schelling model shuffles as [shuffle_from] does. *)
Lemma shuffle_is_shuffle_from (m : nat → N) (n : nat) :
  ∀ (l : list AgentId) (st : State), length l = n →
    shuffle m n l st =
    (Return (shuffle_from m (random_pos st) n l), Nat.iter n advance_random st).
Proof.
  induction n as [|n IH]; intros l st Hlen; [done|].
  rewrite Nat.iter_succ_r.
  cbn [shuffle shuffle_from]. unfold randbelow, bind, ret. cbn beta iota.
  set (j := (N.to_nat (m (random_pos st)) `mod` length l)%nat).
  assert (Hj : (j < length l)%nat) by (apply Nat.mod_upper_bound; lia).
  destruct (lookup_lt_is_Some_2 _ _ Hj) as [x Hx]. rewrite Hx.
  rewrite IH by (rewrite length_delete by eauto; lia). done.
Qed.

Lemma shuffle_from_Permutation {A} (draws : nat → N) (n : nat) :
  ∀ (p : nat) (l : list A), length l = n → shuffle_from draws p n l ≡ₚ l.
Proof.
  induction n as [|n IH]; intros p l Hlen.
  { destruct l; [done|discriminate]. }
  cbn [shuffle_from].
  set (j := (N.to_nat (draws p) `mod` length l)%nat).
  assert (Hj : (j < length l)%nat) by (apply Nat.mod_upper_bound; lia).
  destruct (lookup_lt_is_Some_2 _ _ Hj) as [x Hx]. rewrite Hx.
  rewrite IH by (rewrite length_delete by eauto; lia).
  symmetry. by apply delete_Permutation.
Qed.

Lemma append_bang_inj (s1 s2 : string) : s1 +:+ "!" = s2 +:+ "!" → s1 = s2.
Proof.
  revert s2. induction s1 as [|c1 s1 IH]; intros [|c2 s2] Heq; simpl in Heq.
  - done.
  - injection Heq as _ Heq. by destruct s2.
  - injection Heq as _ Heq. by destruct s1.
  - injection Heq as -> Heq. f_equal. by apply IH.
Qed.

Lemma greeting_inj (i j : Z) :
  greeting (mkToyAgent i i) = greeting (mkToyAgent j j) → i = j.
Proof.
  unfold greeting. simpl. intros Heq.
  apply (inj (String.app "Hi, I'm Agent 00")) in Heq.
  apply append_bang_inj in Heq. by apply (inj pretty) in Heq.
Qed.

(** The registry that [ToyModel.__init__] builds. *)
Lemma toy_init_loop (l : list Z) :
  NoDup l →
  ∀ st, (∀ i, i ∈ l → toy_agents st !! i = None) →
  let st' := foldl (λ st i, toy_schedule_add (mkToyAgent i i) st) st l in
  toy_keys st' = toy_keys st ++ l ∧
  (∀ i, i ∈ l → toy_agents st' !! i = Some (mkToyAgent i i)) ∧
  (∀ i, i ∉ l → toy_agents st' !! i = toy_agents st !! i) ∧
  toy_random_pos st' = toy_random_pos st ∧ stdout st' = stdout st.
Proof.
  induction 1 as [|x l Hx Hnd IH]; intros st Hfresh; simpl.
  { rewrite app_nil_r. repeat split; try done. intros i Hi. by apply elem_of_nil in Hi. }
  destruct (IH (toy_schedule_add (mkToyAgent x x) st)) as (Hk & Hin & Hout & Hr & Ho).
  { intros i Hi. simpl. rewrite lookup_insert_ne by (intros ->; done).
    apply Hfresh. by right. }
  rewrite Hk, Hr, Ho. simpl.
  rewrite (Hfresh x) by by left.
  rewrite decide_False by (by intros [? ?]).
  rewrite <- app_assoc. split; [done|]. split; [|split; [|done]].
  - intros i Hi. apply elem_of_cons in Hi as [->|Hi]; [|by apply Hin].
    rewrite Hout by done. simpl. by rewrite lookup_insert_eq.
  - intros i Hi. apply not_elem_of_cons in Hi as [Hne Hi].
    rewrite Hout by done. simpl. by rewrite lookup_insert_ne.
Qed.

(** The loop of the scheduler's step over keys that are all registered. *)
Lemma toy_loop (order : list Z) :
  ∀ st, (∀ i, i ∈ order → toy_agents st !! i = Some (mkToyAgent i i)) →
  foldl (λ st key, match toy_agents st !! key with
                   | Some a => ToyAgent_step a st
                   | None => st
                   end) st order =
  mkToyState (toy_keys st) (toy_agents st) (toy_random_pos st)
             (stdout st ++ map (λ i, greeting (mkToyAgent i i)) order).
Proof.
  induction order as [|key order IH]; intros st Hreg; simpl.
  { rewrite app_nil_r. by destruct st. }
  rewrite (Hreg key) by by left.
  rewrite IH by (intros i Hi; simpl; apply Hreg; by right).
  simpl. by rewrite <- app_assoc.
Qed.

(** One step of a toy model whose registry is that of [n_agents] agents. *)
Lemma toy_step_spec (m : nat → N) (n_agents : Z) (st : ToyState) :
  toy_keys st = seqZ 0 n_agents →
  (∀ i, i ∈ seqZ 0 n_agents → toy_agents st !! i = Some (mkToyAgent i i)) →
  ∃ order, order ≡ₚ seqZ 0 n_agents ∧
    ToyModel_step m st =
    mkToyState (toy_keys st) (toy_agents st)
               (length (toy_keys st) + toy_random_pos st)
               (stdout st ++ map (λ i, greeting (mkToyAgent i i)) order).
Proof.
  intros Hk Hreg.
  set (order := shuffle_from m (toy_random_pos st) (length (toy_keys st)) (toy_keys st)).
  assert (Hperm : order ≡ₚ seqZ 0 n_agents).
  { unfold order. rewrite shuffle_from_Permutation by done. by rewrite Hk. }
  exists order. split; [done|].
  unfold ToyModel_step. fold order. rewrite toy_loop; [done|].
  intros i Hi. simpl. apply Hreg. by rewrite <- Hperm.
Qed.

Section Toy.

Variable model_random : nat → N.

(** X12.  [ToyModel(n_agents).step()] prints one line for each agent, each
    agent's own and no line twice: the lines added to the output are a
    permutation of the greetings of the names 0 to n_agents - 1 (none when
    n_agents is not positive), and the registry stays as the constructor
    built it. *)
Theorem toy_step_greets_every_agent_once (n_agents : Z) (r : nat) (out : list string) :
  let st := ToyModel_init n_agents r out in
  toy_keys st = seqZ 0 n_agents ∧
  ∃ lines,
    stdout (ToyModel_step model_random st) = out ++ lines ∧
    lines ≡ₚ map (λ i, greeting (mkToyAgent i i)) (seqZ 0 n_agents) ∧
    NoDup lines ∧
    length lines = Z.to_nat n_agents ∧
    toy_keys (ToyModel_step model_random st) = seqZ 0 n_agents.
Proof.
  intros st.
  destruct (toy_init_loop (seqZ 0 n_agents) (NoDup_seqZ _ _) (mkToyState [] ∅ r out))
    as (Hk & Hin & _ & Hr & Ho); [done|].
  fold (ToyModel_init n_agents r out) in Hk, Hin, Hr, Ho. fold st in Hk, Hin, Hr, Ho.
  simpl in Hk, Hr, Ho. split; [done|].
  destruct (toy_step_spec model_random n_agents st Hk Hin) as (order & Hperm & ->).
  exists (map (λ i, greeting (mkToyAgent i i)) order). simpl. rewrite Ho.
  split; [done|]. split; [by rewrite Hperm|]. split; [|split; [|done]].
  - apply NoDup_fmap_2_strong.
    + intros i j _ _. apply greeting_inj.
    + rewrite Hperm. apply NoDup_seqZ.
  - by rewrite length_map, Hperm, length_seqZ.
Qed.

(** X13.  However often [ToyModel.step] is called, every call prints each
    agent's greeting once more: after [k] calls the lines printed are a
    permutation of [k] copies of the [n_agents] greetings. *)
Theorem toy_steps_greet_every_agent_each_time
    (n_agents : Z) (r : nat) (out : list string) (k : nat) :
  ∃ lines,
    stdout (Nat.iter k (ToyModel_step model_random) (ToyModel_init n_agents r out)) =
      out ++ lines ∧
    lines ≡ₚ concat (replicate k (map (λ i, greeting (mkToyAgent i i)) (seqZ 0 n_agents))) ∧
    length lines = (k * Z.to_nat n_agents)%nat.
Proof.
  destruct (toy_init_loop (seqZ 0 n_agents) (NoDup_seqZ _ _) (mkToyState [] ∅ r out))
    as (Hk & Hin & _ & Hr & Ho); [done|].
  fold (ToyModel_init n_agents r out) in Hk, Hin, Hr, Ho. simpl in Hk, Hr, Ho.
  set (gs := map (λ i, greeting (mkToyAgent i i)) (seqZ 0 n_agents)).
  enough (H : ∃ lines,
    toy_keys (Nat.iter k (ToyModel_step model_random) (ToyModel_init n_agents r out)) =
      seqZ 0 n_agents ∧
    toy_agents (Nat.iter k (ToyModel_step model_random) (ToyModel_init n_agents r out)) =
      toy_agents (ToyModel_init n_agents r out) ∧
    stdout (Nat.iter k (ToyModel_step model_random) (ToyModel_init n_agents r out)) =
      out ++ lines ∧
    lines ≡ₚ concat (replicate k gs)).
  { destruct H as (lines & _ & _ & Hout & Hperm). exists lines.
    split; [done|]. split; [done|].
    rewrite Hperm. clear. induction k as [|k IH]; [done|].
    cbn [replicate concat]. rewrite length_app, IH.
    unfold gs. rewrite length_map, length_seqZ. lia. }
  induction k as [|k (lines & Hkeys & Hag & Hout & Hperm)].
  { exists []. simpl. by rewrite app_nil_r. }
  cbn [Nat.iter nat_rect].
  destruct (toy_step_spec model_random n_agents
              (Nat.iter k (ToyModel_step model_random) (ToyModel_init n_agents r out)))
    as (order & Hord & Hstep); [done|by rewrite Hag|].
  change (nat_rect _ ?x ?f k) with (Nat.iter k (ToyModel_step model_random) x) in *.
  rewrite Hstep. simpl.
  exists (lines ++ map (λ i, greeting (mkToyAgent i i)) order).
  split; [done|]. split; [done|]. split; [by rewrite Hout, app_assoc|].
  cbn [replicate concat]. rewrite Hperm, Hord. fold gs.
  apply Permutation_app_comm.
Qed.

End Toy.

(** ** What the count of a tick counts *)

Lemma filter_ext_in {A} (P Q : A → Prop) `{∀ x, Decision (P x), ∀ x, Decision (Q x)}
    (l : list A) :
  (∀ x, x ∈ l → (P x ↔ Q x)) → filter P l = filter Q l.
Proof.
  induction l as [|x l IH]; intros Hext; [done|].
  rewrite !filter_cons.
  rewrite IH by (intros y Hy; apply Hext; by right).
  destruct (decide (P x)) as [HP|HP], (decide (Q x)) as [HQ|HQ]; try done.
  - exfalso. apply HQ, (Hext x); [by left|done].
  - exfalso. apply HP, (Hext x); [by left|done].
Qed.

Section Count.

Variable model_random : nat → N.

(** A loop that returns has added to the count the number of agents of its
    order that stand elsewhere than before, and has left the agents
    outside its order alone. *)
Lemma for_each_count (order : list AgentId) :
  NoDup order →
  ∀ st st' m, state_inv st → moved st = Some m →
  for_each order (activate model_random) st = (Return tt, st') →
  moved st' =
    Some (m + Z.of_nat (length (filter
            (λ id, pos <$> agents st' !! id ≠ pos <$> agents st !! id) order))) ∧
  (∀ id, id ∉ order → agents st' !! id = agents st !! id).
Proof.
  induction 1 as [|key order Hnin Hnd IH]; intros st st' m Hinv Hm Hrun.
  { simpl in Hrun. injection Hrun as <-. simpl. rewrite Z.add_0_r. done. }
  simpl in Hrun. unfold bind in Hrun.
  assert (Hsame : ∀ st1, for_each order (activate model_random) st = (Return tt, st1) →
            moved st1 = Some (m + Z.of_nat (length (filter
              (λ id, pos <$> agents st1 !! id ≠ pos <$> agents st !! id) (key :: order)))) ∧
            (∀ id, id ∉ key :: order → agents st1 !! id = agents st !! id)).
  { intros st1 Hrun1. destruct (IH st st1 m Hinv Hm Hrun1) as [Hcount Hframe].
    rewrite filter_cons. rewrite decide_False by (by rewrite (Hframe key Hnin); intros ?).
    split; [done|]. intros id Hid. apply Hframe. by apply not_elem_of_cons in Hid as [_ ?]. }
  destruct (unhappy st key) eqn:Hu.
  - unfold unhappy in Hu.
    destruct (agents st !! key) as [a|] eqn:Ha; [|done].
    destruct (inv_agents st Hinv _ _ Ha) as [Hid Hcell].
    rewrite (activate_as_step model_random key a st Ha) in Hrun.
    destruct (decide (empties (grid st) = ∅)) as [He|Hne].
    { rewrite step_unhappy_full in Hrun by done. discriminate. }
    pose proof Ha as Ha'. rewrite <- Hid in Ha'.
    destruct (step_unhappy_some model_random a st Hinv Ha' Hu Hne) as (c & Hc & Heq).
    rewrite Heq, Hm in Hrun.
    assert (Hinv1 : state_inv (set_moved (Some (m + 1)) (relocated a c st))).
    { apply (state_inv_ext (relocated a c st)); try done. by apply relocated_inv. }
    destruct (IH _ st' (m + 1) Hinv1 eq_refl Hrun) as [Hcount Hframe].
    simpl in Hcount, Hframe. rewrite Hid in Hframe.
    assert (Hpc : c ≠ pos a).
    { apply (inv_empties st Hinv) in Hc as [_ Hnone]. intros ->. congruence. }
    split.
    + rewrite filter_cons. rewrite decide_True.
      2: { rewrite (Hframe key Hnin), lookup_alter_eq, Ha. simpl. congruence. }
      rewrite Hcount. cbn [length]. f_equal.
      rewrite (filter_ext_in _ (λ id, pos <$> agents st' !! id ≠ pos <$> agents st !! id)).
      * lia.
      * intros id Hin. rewrite lookup_alter_ne; [done|].
        intros Hkid. rewrite Hid in Hkid. by subst id.
    + intros id Hnot. apply not_elem_of_cons in Hnot as [Hne' Hnot].
      rewrite (Hframe id Hnot). by rewrite lookup_alter_ne.
  - rewrite activate_happy in Hrun by done. by apply Hsame.
Qed.

(** X14.  The count that a completed [SchellingModel.step] leaves in
    [moved] (and prints) is the number of registered agents that stand on
    another cell after the tick than before it. *)
Theorem tick_counts_the_agents_that_changed_cell (st : State) :
  state_inv st →
  let r := SchellingModel_step model_random st in
  fst r = Return tt →
  moved (snd r) =
    Some (Z.of_nat (length (filter
            (λ id, pos <$> agents (snd r) !! id ≠ pos <$> agents st !! id)
            (agent_keys st)))).
Proof.
  intros Hinv r Hret. destruct (tick_spec model_random st) as (order & Hperm & Htick).
  set (st0 := Nat.iter _ _ _) in Htick.
  destruct (iter_advance_fields (length (agent_keys st)) (set_moved (Some 0) st))
    as (Hk & Ha & Hg & Hm & _). fold st0 in Hk, Ha, Hg, Hm. simpl in *.
  assert (Hinv0 : state_inv st0) by by apply (state_inv_ext st).
  unfold r in *. rewrite Htick in *.
  destruct (for_each order (activate model_random) st0) as [o st'] eqn:Hrun.
  simpl in *. subst o.
  assert (Hnd : NoDup order) by (rewrite Hperm; apply (inv_keys_nodup st Hinv)).
  destruct (for_each_count order Hnd st0 st' 0 Hinv0 Hm Hrun) as [Hcount _].
  rewrite Hcount, Ha. simpl. rewrite Z.add_0_l. do 2 f_equal.
  apply Permutation_length. by rewrite Hperm.
Qed.

End Count.

(** ** The further properties on concrete towns *)

Lemma roomy_reachable :
  reachable (high_at 15) three_triangles 4 4 (1 # 2) (1 # 2) 0 0 roomy.
Proof. unfold roomy. rewrite <- init_upto_all. apply reach_init. Qed.

Lemma roomy_has_room : empties (grid roomy) ≠ ∅.
Proof.
  intros He. assert (Hin : (3, 3) ∈ empties (grid roomy)).
  { apply elem_of_elements. vm_compute. left. }
  rewrite He in Hin. by apply not_elem_of_empty in Hin.
Qed.

Lemma reachable_agents_keep_type_and_threshold_witness :
  agents roomy !! (1, 1) = Some inner_triangle ∧
  unique_id inner_triangle = (1, 1) ∧
  (type inner_triangle = "triangle"%string ∨ type inner_triangle = "square"%string) ∧
  homophily inner_triangle = 1 # 2.
Proof.
  split; [vm_compute; reflexivity|].
  apply (reachable_agents_keep_type_and_threshold
           (high_at 15) three_triangles 4 4 (1 # 2) (1 # 2) 0 0 roomy).
  - apply roomy_reachable.
  - vm_compute. reflexivity.
Defined.

Lemma step_moves_only_the_agent_itself_witness :
  let st' := snd (SchellingAgent_step (high_at 15) inner_triangle roomy) in
  (∀ id, id ≠ (1, 1) → agents st' !! id = agents roomy !! id) ∧
  (∀ c id, id ≠ (1, 1) →
     cells (grid roomy) !! c = Some id → cells (grid st') !! c = Some id) ∧
  (∃ a', agents st' !! (1, 1) = Some a' ∧
         unique_id a' = (1, 1) ∧ type a' = "triangle"%string ∧
         homophily a' = 1 # 2).
Proof.
  apply (step_moves_only_the_agent_itself (high_at 15) inner_triangle roomy).
  - apply init_state_inv.
  - vm_compute. reflexivity.
Defined.

Lemma step_before_the_first_tick_moves_then_raises_witness :
  let r := SchellingAgent_step (high_at 15) inner_triangle roomy in
  fst r = Raise AttributeError ∧
  moved (snd r) = None ∧
  ∃ c, c ∈ empties (grid roomy) ∧ c ≠ (1, 1) ∧
       cells (grid (snd r)) !! c = Some (1, 1) ∧
       cells (grid (snd r)) !! (1, 1) = None ∧
       pos <$> agents (snd r) !! (1, 1) = Some c.
Proof.
  apply (step_before_the_first_tick_moves_then_raises (high_at 15) inner_triangle roomy).
  - apply init_state_inv.
  - vm_compute. reflexivity.
  - vm_compute. reflexivity.
  - vm_compute. reflexivity.
  - apply roomy_has_room.
Defined.

Lemma tick_counts_at_most_the_population_witness :
  ∃ m, moved (snd (SchellingModel_step (high_at 15) roomy)) = Some m ∧
       0 ≤ m ≤ Z.of_nat (length (agent_keys roomy)).
Proof.
  apply (tick_counts_at_most_the_population (high_at 15) roomy).
  apply init_state_inv.
Defined.


Lemma stable_town_stays_stable_witness :
  ∃ st', run (high_at 15) 3 (snd (SchellingModel_step (high_at 15) calm)) =
           (Return (repeat (snapshot calm, Some 0) 3), st') ∧
         grid st' = grid calm ∧ agents st' = agents calm.
Proof.
  apply (stable_town_stays_stable (high_at 15) calm 3).
  - apply init_state_inv.
  - vm_compute. reflexivity.
  - vm_compute. reflexivity.
Defined.




Lemma tick_counts_the_agents_that_changed_cell_witness :
  let r := SchellingModel_step (high_at 15) roomy in
  moved (snd r) =
    Some (Z.of_nat (length (filter
            (λ id, pos <$> agents (snd r) !! id ≠ pos <$> agents roomy !! id)
            (agent_keys roomy)))).
Proof.
  apply (tick_counts_the_agents_that_changed_cell (high_at 15) roomy).
  - apply init_state_inv.
  - vm_compute. reflexivity.
Defined.
